(** * Apartments: sort + two-pointer sweep

    Shallow embedding of the two solutions of the repository,
    [src/Apartments_shot_1.cpp] (module [Apartments]) and
    [src/temp/Apartments_shot_1.cpp] (module [Temp]), and the properties of
    the printed match count.

    Values and the tolerance are C++ [int]s: they are integers [Z] and every
    [int] operation of the source ([-] and [abs]) is written with its 32-bit
    two's-complement wrap-around.  The loop counters [i], [j] and the
    accumulator only grow by one and stay below the vector sizes (themselves
    [int]s), so they are natural numbers. *)

From Stdlib Require Import ZArith Lia.
From stdpp Require Import list sorting.

Local Open Scope Z_scope.

(** ** 32-bit signed arithmetic *)

Definition int_min : Z := - 2 ^ 31.
Definition int_max : Z := 2 ^ 31 - 1.

(** Reduction of a mathematical integer to its [int] representative. *)
Definition wrap32 (z : Z) : Z := (z + 2 ^ 31) mod 2 ^ 32 - 2 ^ 31.

(** [x - y] on [int]. *)
Definition sub32 (x y : Z) : Z := wrap32 (x - y).

(** [abs(x)] on [int]; [abs32 int_min = int_min]. *)
Definition abs32 (x : Z) : Z := wrap32 (Z.abs x).

(** ** [std::sort] on a [vector<int>]

    The library routine is not part of the repository.  On integers its
    result is determined by its contract (the ascending rearrangement of the
    input, see [sort_unique] below); insertion sort computes it. *)

Fixpoint sort_insert (x : Z) (l : list Z) : list Z :=
  match l with
  | [] => [x]
  | y :: l' => if x <=? y then x :: y :: l' else y :: sort_insert x l'
  end.

Fixpoint sort (l : list Z) : list Z :=
  match l with
  | [] => []
  | x :: l' => sort_insert x (sort l')
  end.

(** ** The [while] loop

    [while cond body fuel s] runs [body] as long as [cond] holds; [fuel]
    bounds the number of iterations, and [None] means the bound was hit with
    the condition still true. *)

Section While.
Context {S : Type}.
Variable cond : S → bool.
Variable body : S → S.

Fixpoint while (fuel : nat) (s : S) : option S :=
  if cond s then
    match fuel with
    | O => None
    | Datatypes.S fuel' => while fuel' (body s)
    end
  else Some s.

(** The state after exactly [t] executions of the body. *)
Fixpoint iter (t : nat) (s : S) : S :=
  match t with
  | O => s
  | Datatypes.S t' => iter t' (body s)
  end.

End While.

(** Loop state: the locals [(i, j, ans)] resp. [(i, j, count)]. *)
Definition state : Type := nat * nat * nat.

Definition init : state := (0, 0, 0)%nat.

(** [i < n && j < m] *)
Definition cond (n m : nat) (s : state) : bool :=
  let '(i, j, _) := s in (i <? n)%nat && (j <? m)%nat.

Definition result (s : state) : nat := let '(_, _, c) := s in c.

(** ** src/Apartments_shot_1.cpp *)

Module Apartments.

Definition body (k : Z) (a b : list Z) (s : state) : state :=
  let '(i, j, ans) := s in
  if abs32 (sub32 (a !!! i) (b !!! j)) <=? k then (S i, S j, S ans)
  else if sub32 (a !!! i) (b !!! j) >? k then (i, S j, ans)
  else (S i, j, ans).

(** [main] on the input [n m k a_1..a_n b_1..b_m]; the result is the
    printed number. *)
Definition main (k : Z) (a b : list Z) : option nat :=
  let n := length a in
  let m := length b in
  let a := sort a in
  let b := sort b in
  result <$> while (cond n m) (body k a b) (n + m) init.

End Apartments.

(** ** src/temp/Apartments_shot_1.cpp *)

Module Temp.

Definition body (k : Z) (applicants apartments : list Z) (s : state) : state :=
  let '(i, j, count) := s in
  if abs32 (sub32 (applicants !!! i) (apartments !!! j)) <=? k
  then (S i, S j, S count)
  else if applicants !!! i <? apartments !!! j then (S i, j, count)
  else (i, S j, count).

(** [main] on the same input format. *)
Definition main (k : Z) (applicants apartments : list Z) : option nat :=
  let n := length applicants in
  let m := length apartments in
  let applicants := sort applicants in
  let apartments := sort apartments in
  result <$> while (cond n m) (body k applicants apartments) (n + m) init.

End Temp.

(** ** Reading the input

    Both files read [n m k] with [cin >> n >> m >> k], create the vectors
    with [n] and [m] value-initialised (zero) entries, and fill them entry
    by entry with [cin >> x].  The input is given as the list of its
    whitespace-separated tokens, each the integer it denotes (of any
    size).  An extraction (C++11 and later) stores a token of the [int]
    range; for a token outside it stores [INT_MAX] or [INT_MIN] and sets
    failbit; at the end of the input it sets failbit and stores nothing;
    once failbit is set no extraction stores anything, so the remaining
    vector entries stay 0.

    [None] stands for the runs outside this model: a header in which one
    of [n], [m], [k] is never assigned (fewer than three tokens, or [n] or
    [m] outside the [int] range, after which the following locals are not
    read), and a negative size (the vector constructor throws). *)

(** [z] is representable as an [int]. *)
Definition in_int (z : Z) : bool := (int_min <=? z) && (z <=? int_max).

(** All values of a sequence are [int]s. *)
Definition ints (l : list Z) : Prop := Forall (λ z, int_min ≤ z ≤ int_max) l.

(** What an extraction stores for a token outside the [int] range. *)
Definition saturate (z : Z) : Z := if z <? int_min then int_min else int_max.

(** The state of [cin]: the tokens not yet consumed, or [None] once
    failbit is set. *)
Definition stream : Type := option (list Z).

(** The tokens an extraction can still see. *)
Definition pending (s : stream) : list Z := default [] s.

(** [cin >> x] for an [x] that holds [v]: the value of [x] afterwards and
    the new state of the stream. *)
Definition extract (v : Z) (s : stream) : Z * stream :=
  match s with
  | Some (t :: rest) =>
      if in_int t then (t, Some rest) else (saturate t, None)
  | _ => (v, None)
  end.

(** The loop [cin >> x] over a zero-initialised vector of [n] entries: the
    vector read and the stream afterwards. *)
Fixpoint read_vector (n : nat) (s : stream) : list Z * stream :=
  match n with
  | O => ([], s)
  | S n' =>
      let '(x, s) := extract 0 s in
      let '(l, s) := read_vector n' s in
      (x :: l, s)
  end.

Definition read_input (tokens : list Z) : option (Z * list Z * list Z) :=
  match tokens with
  | n :: m :: k :: rest =>
      if in_int n && in_int m then
        if (n <? 0) || (m <? 0) then None
        else
          let '(k, s) := extract 0 (Some (k :: rest)) in
          let '(a, s) := read_vector (Z.to_nat n) s in
          let '(b, _) := read_vector (Z.to_nat m) s in
          Some (k, a, b)
      else None
  | _ => None
  end.

(** The two programs from the tokens of standard input to the printed
    count. *)
Definition apartments_program (tokens : list Z) : option nat :=
  read_input tokens ≫= λ '(k, a, b), Apartments.main k a b.

Definition temp_program (tokens : list Z) : option nat :=
  read_input tokens ≫= λ '(k, a, b), Temp.main k a b.

(** ** Specification-level notions *)

(** A matching pairs applicants with apartments by position in the input:
    no applicant and no apartment occurs twice, and the two values of every
    pair differ by at most [k]. *)
Definition matching (k : Z) (a b : list Z) (M : list (nat * nat)) : Prop :=
  NoDup M.*1 ∧ NoDup M.*2 ∧
  ∀ p q, (p, q) ∈ M →
    ∃ x y, a !! p = Some x ∧ b !! q = Some y ∧ Z.abs (x - y) ≤ k.

(** [c] is the maximum cardinality of a matching. *)
Definition max_matching (k : Z) (a b : list Z) (c : nat) : Prop :=
  (∃ M, matching k a b M ∧ length M = c) ∧
  (∀ M, matching k a b M → (length M ≤ c)%nat).

(** The same notion on values: the paired applicant values form a
    sub-multiset of the applicants, likewise for the apartments. *)
Definition vmatching (k : Z) (a b : list Z) (V : list (Z * Z)) : Prop :=
  V.*1 ⊆+ a ∧ V.*2 ⊆+ b ∧ Forall (λ v, Z.abs (v.1 - v.2) ≤ k) V.

(** No applicant-apartment difference leaves the [int] range or hits
    [int_min], whose [abs] is not representable. *)
Definition no_overflow (a b : list Z) : Prop :=
  ∀ x y, x ∈ a → y ∈ b → int_min < x - y ≤ int_max.

(** All values lie in [[-2^30, 2^30 - 1]]. *)
Definition in_range (l : list Z) : Prop :=
  Forall (λ x, - 2 ^ 30 ≤ x ≤ 2 ^ 30 - 1) l.

(** The loop invariant [count <= min(i, j) <= min(n, m)]. *)
Definition bounded (n m : nat) (s : state) : Prop :=
  let '(i, j, c) := s in (c ≤ i `min` j ∧ i `min` j ≤ n `min` m)%nat.

(** Exchange of the two pointers. *)
Definition swap (s : state) : state := let '(i, j, c) := s in (j, i, c).

(** One iteration advances [i], [j] or both by one, and counts exactly the
    iterations that advance both. *)
Definition advances (s s' : state) : Prop :=
  let '(i, j, c) := s in
  s' = (S i, S j, S c) ∨ s' = (S i, j, c) ∨ s' = (i, S j, c).

(** Remaining distance of the two pointers to the ends of the vectors. *)
Definition remaining (n m : nat) (s : state) : nat :=
  let '(i, j, _) := s in ((n - i) + (m - j))%nat.

(** [P] holds on entry of the loop and is kept by every iteration. *)
Definition loop_invariant (n m : nat) (body : state → state)
    (P : state → Prop) : Prop :=
  P init ∧ ∀ s, P s → cond n m s = true → P (body s).

(** Every iteration moves no pointer back and moves one of them forward. *)
Definition progresses (n m : nat) (body : state → state) : Prop :=
  ∀ s, cond n m s = true →
    let '(i, j, _) := s in
    let '(i', j', _) := body s in
    (i ≤ i' ∧ j ≤ j' ∧ i + j < i' + j')%nat.

(** The loop started in [init] runs exactly [t] iterations: the condition
    holds before each of them and fails after the last, and [while] with
    fuel [n + m] returns that state. *)
Definition exits_after (n m : nat) (body : state → state) (t : nat) : Prop :=
  (∀ t', (t' < t)%nat → cond n m (iter body t' init) = true) ∧
  cond n m (iter body t init) = false ∧
  while (cond n m) body (n + m) init = Some (iter body t init).

(** [f] sends the positions of [l] to distinct positions of [a] holding the
    same values. *)
Definition embeds {A} (l a : list A) (f : nat → nat) : Prop :=
  (∀ t t', (t < length l)%nat → (t' < length l)%nat → f t = f t' → t = t') ∧
  (∀ t x, l !! t = Some x → a !! f t = Some x).

(** The values paired by a matching on positions. *)
Definition values (a b : list Z) (M : list (nat * nat)) : list (Z * Z) :=
  (λ pq, (a !!! pq.1, b !!! pq.2)) <$> M.

(** Adding the same offset [d] to every value of a sequence. *)
Definition shift (d : Z) (l : list Z) : list Z := (λ x, x + d) <$> l.

(** The opposite of every value of a sequence. *)
Definition negate (l : list Z) : list Z := Z.opp <$> l.

(** ** Facts on 32-bit arithmetic *)

Ltac unwrap :=
  unfold sub32, abs32, wrap32, int_min, int_max in *;
  change (2 ^ 31) with 2147483648 in *;
  change (2 ^ 32) with 4294967296 in *;
  change (2 ^ 30) with 1073741824 in *;
  Z.div_mod_to_equations.

Lemma wrap32_bounds z : int_min ≤ wrap32 z ≤ int_max.
Proof. unwrap. lia. Qed.

Lemma wrap32_exact z : int_min ≤ z ≤ int_max → wrap32 z = z.
Proof. unwrap. lia. Qed.

Lemma sub32_exact x y : int_min ≤ x - y ≤ int_max → sub32 x y = x - y.
Proof. unwrap. lia. Qed.

Lemma abs32_exact z : int_min < z ≤ int_max → abs32 z = Z.abs z.
Proof. unwrap. lia. Qed.

Lemma abs32_int_min : abs32 int_min = int_min.
Proof. reflexivity. Qed.

Lemma abs32_sub32_exact x y :
  int_min < x - y ≤ int_max → abs32 (sub32 x y) = Z.abs (x - y).
Proof. unwrap. lia. Qed.

(** The wrapped difference changes sign with its operands, except at
    [int_min], which is its own opposite. *)
Lemma sub32_opp x y :
  (sub32 x y = int_min ∧ sub32 y x = int_min) ∨
  (int_min < sub32 x y ≤ int_max ∧ sub32 y x = - sub32 x y).
Proof. unwrap. lia. Qed.

Lemma abs32_sub32_sym x y : abs32 (sub32 x y) = abs32 (sub32 y x).
Proof.
  destruct (sub32_opp x y) as [[-> ->]|[Hd ->]]; [done|].
  rewrite !abs32_exact; unfold int_min, int_max in *; lia.
Qed.

Example temp_ex1 : Temp.main 0 [1; 2; 3] [1; 2; 3] = Some 3%nat.
Proof. reflexivity. Qed.

Example temp_ex4 : Temp.main 5 [10] [1] = Some 0%nat.
Proof. reflexivity. Qed.

Example apartments_ex1 : Apartments.main 0 [3; 1; 2] [2; 3; 1] = Some 3%nat.
Proof. reflexivity. Qed.

Example apartments_ex4 : Apartments.main 5 [10] [1] = Some 0%nat.
Proof. reflexivity. Qed.

(** ** [sort] returns the ascending rearrangement of its input *)

Lemma sort_insert_perm x l : sort_insert x l ≡ₚ x :: l.
Proof.
  induction l as [|y l IH]; simpl; [done|].
  case_match; [done|]. by rewrite IH, Permutation_swap.
Qed.

Lemma sort_perm l : sort l ≡ₚ l.
Proof.
  induction l as [|x l IH]; simpl; [done|].
  by rewrite sort_insert_perm, IH.
Qed.

Lemma sort_length l : length (sort l) = length l.
Proof. by rewrite sort_perm. Qed.

Lemma sort_insert_sorted x l :
  StronglySorted Z.le l → StronglySorted Z.le (sort_insert x l).
Proof.
  induction 1 as [|y l Hl IH Hy]; simpl.
  - repeat constructor.
  - destruct (Z.leb_spec x y) as [Hxy|Hxy].
    + constructor; [by constructor|].
      constructor; [done|]. eapply Forall_impl; [exact Hy|]. simpl. lia.
    + constructor; [done|]. rewrite sort_insert_perm.
      constructor; [lia|done].
Qed.

Lemma sort_sorted l : StronglySorted Z.le (sort l).
Proof.
  induction l; simpl; [constructor|]. by apply sort_insert_sorted.
Qed.

Lemma sort_unique l l' : StronglySorted Z.le l' → l' ≡ₚ l → l' = sort l.
Proof.
  intros Hs Hp. apply (StronglySorted_unique Z.le); [done|apply sort_sorted|].
  by rewrite sort_perm.
Qed.

Lemma sort_permuted l l' : l ≡ₚ l' → sort l = sort l'.
Proof.
  intros Hp. apply sort_unique; [apply sort_sorted|]. by rewrite sort_perm.
Qed.

(** In a sorted vector, the entry at [i] is below every later entry. *)
Lemma sorted_drop l i x :
  StronglySorted Z.le l → l !! i = Some x →
  drop i l = x :: drop (S i) l ∧ Forall (Z.le x) (drop (S i) l).
Proof.
  intros Hs Hx. pose proof (drop_S _ _ _ Hx) as Hd. split; [done|].
  rewrite <-(take_drop i l) in Hs. apply StronglySorted_app_1_r in Hs.
  rewrite Hd in Hs. by inversion Hs.
Qed.

(** ** Generic facts on [while] *)

Section WhileFacts.
Context {S : Type}.
Variable guard : S → bool.
Variable step : S → S.

Lemma while_unfold fuel s :
  while guard step fuel s =
  if guard s then
    match fuel with O => None | Datatypes.S f => while guard step f (step s) end
  else Some s.
Proof. by destruct fuel. Qed.

(** A loop that returns has left its condition, after a number of
    iterations within the fuel, all of them taken with the condition true. *)
Lemma while_iter fuel s s' :
  while guard step fuel s = Some s' →
  ∃ t, (t ≤ fuel)%nat ∧ s' = iter step t s ∧ guard s' = false ∧
       ∀ t', (t' < t)%nat → guard (iter step t' s) = true.
Proof.
  revert s. induction fuel as [|f IH]; intros s; rewrite while_unfold;
    destruct (guard s) eqn:Hg; try done.
  - intros [= <-]. exists O. split_and!; [lia|done|done|lia].
  - intros (t & Ht & -> & Hout & Hin)%IH. exists (Datatypes.S t).
    split_and!; [lia|done|done|]. intros [|t'] ?; [done|]. apply Hin. lia.
  - intros [= <-]. exists O. split_and!; [lia|done|done|lia].
Qed.

(** More fuel does not change the result. *)
Lemma while_more fuel fuel' s s' :
  (fuel ≤ fuel')%nat →
  while guard step fuel s = Some s' → while guard step fuel' s = Some s'.
Proof.
  revert fuel' s. induction fuel as [|f IH]; intros fuel' s Hle;
    rewrite !(while_unfold _ s); destruct (guard s); try done.
  destruct fuel' as [|f']; [lia|]. apply IH. lia.
Qed.

(** Invariants carry over to the final state. *)
Lemma while_invariant (P : S → Prop) fuel s s' :
  (∀ s, P s → guard s = true → P (step s)) →
  P s → while guard step fuel s = Some s' → P s'.
Proof.
  intros Hstep. revert s. induction fuel as [|f IH]; intros s Hs;
    rewrite while_unfold; destruct (guard s) eqn:Hg; try done;
    try (by intros [= <-]).
  apply IH. by apply Hstep.
Qed.

Lemma iter_invariant (P : S → Prop) t s :
  (∀ s, P s → guard s = true → P (step s)) →
  (∀ t', (t' < t)%nat → guard (iter step t' s) = true) →
  P s → P (iter step t s).
Proof.
  intros Hstep. revert s. induction t as [|t IH]; intros s Hg Hs; [done|].
  simpl. apply IH.
  - intros t' Ht'. apply (Hg (Datatypes.S t')). lia.
  - apply Hstep; [done|]. apply (Hg O). lia.
Qed.

End WhileFacts.

(** ** The shape of one iteration *)

Lemma apartments_body_advances k a b s : advances s (Apartments.body k a b s).
Proof.
  destruct s as [[i j] c]. unfold Apartments.body, advances.
  repeat case_match; auto.
Qed.

Lemma temp_body_advances k a b s : advances s (Temp.body k a b s).
Proof.
  destruct s as [[i j] c]. unfold Temp.body, advances.
  repeat case_match; auto.
Qed.

Lemma cond_true n m i j c :
  cond n m (i, j, c) = true ↔ (i < n)%nat ∧ (j < m)%nat.
Proof. unfold cond. rewrite andb_true_iff, !Nat.ltb_lt. done. Qed.

Lemma cond_false n m i j c :
  cond n m (i, j, c) = false ↔ (n ≤ i)%nat ∨ (m ≤ j)%nat.
Proof. unfold cond. rewrite andb_false_iff, !Nat.ltb_ge. done. Qed.

Section Sweep.
Variables n m : nat.
Variable step : state → state.
Hypothesis step_advances : ∀ s, advances s (step s).

Lemma step_progress s :
  cond n m s = true → (remaining n m (step s) < remaining n m s)%nat.
Proof.
  destruct s as [[i j] c]. intros [Hi Hj]%cond_true.
  destruct (step_advances (i, j, c)) as [-> | [-> | ->]]; simpl; lia.
Qed.

Lemma sweep_terminates fuel s :
  (remaining n m s ≤ fuel)%nat →
  ∃ s', while (cond n m) step fuel s = Some s' ∧ cond n m s' = false.
Proof.
  revert s. induction fuel as [|f IH]; intros s Hf; rewrite while_unfold;
    destruct (cond n m s) eqn:Hc; eauto.
  - destruct s as [[i j] c]. apply cond_true in Hc. simpl in Hf. lia.
  - apply IH. pose proof (step_progress s Hc). lia.
Qed.

Lemma step_bounded s :
  bounded n m s → cond n m s = true → bounded n m (step s).
Proof.
  destruct s as [[i j] c]. intros [Hc Hij] [Hi Hj]%cond_true.
  destruct (step_advances (i, j, c)) as [-> | [-> | ->]];
    unfold bounded; lia.
Qed.

End Sweep.

(** ** The programs return *)

Lemma sweep_returns n m step :
  (∀ s, advances s (step s)) →
  ∃ t, (t ≤ n + m)%nat ∧ exits_after n m step t.
Proof.
  intros Hadv.
  destruct (sweep_terminates n m step Hadv (n + m) init) as (s' & Hw & Hc).
  { simpl. lia. }
  destruct (while_iter _ _ _ _ _ Hw) as (t & Ht & -> & _ & Hin).
  exists t. by repeat split.
Qed.

Lemma sweep_progresses n m step :
  (∀ s, advances s (step s)) → progresses n m step.
Proof.
  intros Hadv [[i j] c] _.
  destruct (Hadv (i, j, c)) as [-> | [-> | ->]]; lia.
Qed.

Lemma sweep_bounded n m step :
  (∀ s, advances s (step s)) → loop_invariant n m step (bounded n m).
Proof.
  intros Hadv. split; [unfold bounded, init; lia|].
  intros s. by apply step_bounded.
Qed.

(** The pointers never pass the vector sizes, which are [int]s: the
    increments of the source cannot overflow. *)
Lemma sweep_in_bounds n m step :
  (∀ s, advances s (step s)) →
  loop_invariant n m step (λ s, let '(i, j, _) := s in (i ≤ n ∧ j ≤ m)%nat).
Proof.
  intros Hadv. split; [simpl; lia|].
  intros [[i j] c] _ [Hi Hj]%cond_true.
  destruct (Hadv (i, j, c)) as [-> | [-> | ->]]; lia.
Qed.

Lemma sweep_result_bounded n m step :
  (∀ s, advances s (step s)) →
  ∃ c, result <$> while (cond n m) step (n + m) init = Some c ∧
       (c ≤ n `min` m)%nat.
Proof.
  intros Hadv. destruct (sweep_returns n m step Hadv) as (t & _ & _ & _ & Hw).
  rewrite Hw. eexists; split; [done|].
  destruct (sweep_bounded n m step Hadv) as [H0 Hs].
  pose proof (while_invariant _ _ _ _ _ _ Hs H0 Hw) as Hb.
  destruct (iter step t init) as [[i j] c]. unfold bounded in Hb. simpl. lia.
Qed.

(** C7. Termination of the sweep, in both programs: every iteration
    advances [i] or [j] (none goes back), the loop leaves after some
    [t <= n + m] iterations, and [main] returns a count. *)
Theorem C7_termination k a b :
  let n := length a in
  let m := length b in
  (progresses n m (Apartments.body k (sort a) (sort b)) ∧
   (∃ t, (t ≤ n + m)%nat ∧
         exits_after n m (Apartments.body k (sort a) (sort b)) t) ∧
   is_Some (Apartments.main k a b)) ∧
  (progresses n m (Temp.body k (sort a) (sort b)) ∧
   (∃ t, (t ≤ n + m)%nat ∧
         exits_after n m (Temp.body k (sort a) (sort b)) t) ∧
   is_Some (Temp.main k a b)).
Proof.
  intros n m. split.
  - pose proof (apartments_body_advances k (sort a) (sort b)) as Hadv.
    split_and!; [by apply sweep_progresses|by apply sweep_returns|].
    destruct (sweep_returns n m _ Hadv) as (t & _ & _ & _ & Hw).
    unfold Apartments.main. fold n m. by rewrite Hw.
  - pose proof (temp_body_advances k (sort a) (sort b)) as Hadv.
    split_and!; [by apply sweep_progresses|by apply sweep_returns|].
    destruct (sweep_returns n m _ Hadv) as (t & _ & _ & _ & Hw).
    unfold Temp.main. fold n m. by rewrite Hw.
Qed.

(** C4. Upper bound: in both programs [count <= min(i, j) <= min(n, m)] is
    an invariant of the loop, and the printed count is at most
    [min(n, m)]. *)
Theorem C4_upper_bound k a b :
  let n := length a in
  let m := length b in
  (loop_invariant n m (Apartments.body k (sort a) (sort b)) (bounded n m) ∧
   ∃ c, Apartments.main k a b = Some c ∧ (c ≤ n `min` m)%nat) ∧
  (loop_invariant n m (Temp.body k (sort a) (sort b)) (bounded n m) ∧
   ∃ c, Temp.main k a b = Some c ∧ (c ≤ n `min` m)%nat).
Proof.
  intros n m. split.
  - pose proof (apartments_body_advances k (sort a) (sort b)) as Hadv.
    split; [by apply sweep_bounded|]. by apply sweep_result_bounded.
  - pose proof (temp_body_advances k (sort a) (sort b)) as Hadv.
    split; [by apply sweep_bounded|]. by apply sweep_result_bounded.
Qed.

(** C8. Empty input: with no applicant or with no apartment the printed
    count is 0, whatever the tolerance and the other sequence. *)
Theorem C8_empty k l :
  (Temp.main k [] l = Some 0%nat ∧ Temp.main k l [] = Some 0%nat) ∧
  (Apartments.main k [] l = Some 0%nat ∧ Apartments.main k l [] = Some 0%nat).
Proof.
  unfold Temp.main, Apartments.main. simpl length. simpl sort.
  rewrite Nat.add_0_r. rewrite !while_unfold. unfold cond, init.
  rewrite andb_false_r. done.
Qed.

(** C9. On [n=2, m=2, k=1], applicants [1 5], apartments [2 6], the
    program prints 2. *)
Theorem C9_example : Temp.main 1 [1; 5] [2; 6] = Some 2%nat.
Proof. reflexivity. Qed.

(** C6. Permutation invariance: reordering the applicants or the
    apartments does not change the printed count of either program. *)
Theorem C6_permutation k a a' b b' :
  a ≡ₚ a' → b ≡ₚ b' →
  Apartments.main k a b = Apartments.main k a' b' ∧
  Temp.main k a b = Temp.main k a' b'.
Proof.
  intros Ha Hb. unfold Apartments.main, Temp.main.
  rewrite (sort_permuted a a' Ha), (sort_permuted b b' Hb).
  by rewrite (Permutation_length Ha), (Permutation_length Hb).
Qed.

Lemma C6_permutation_witness :
  Apartments.main 1 [5; 1; 9] [6; 2] = Apartments.main 1 [1; 9; 5] [2; 6] ∧
  Temp.main 1 [5; 1; 9] [6; 2] = Temp.main 1 [1; 9; 5] [2; 6].
Proof.
  apply (C6_permutation 1 [5; 1; 9] [1; 9; 5] [6; 2] [2; 6]).
  - apply (Permutation_cons_append [1; 9] 5).
  - apply Permutation_swap.
Defined.

(** C10. Exact arithmetic: when all values lie in [[-2^30, 2^30 - 1]], in
    every state inside the loop the [int] difference [a[i] - b[j]] does
    not wrap, [abs] is not applied to [int_min], the match test
    [abs(a[i] - b[j]) <= k] of both loop bodies is the mathematical test
    [|a[i] - b[j]| <= k], and each body takes its branch by the exact
    difference. *)
Theorem C10_exact_test k a b i j c :
  in_range a → in_range b → (i < length a)%nat → (j < length b)%nat →
  let x := sort a !!! i in
  let y := sort b !!! j in
  sub32 x y = x - y ∧ sub32 x y ≠ int_min ∧
  abs32 (sub32 x y) = Z.abs (x - y) ∧
  (abs32 (sub32 x y) <=? k) = (Z.abs (x - y) <=? k) ∧
  Apartments.body k (sort a) (sort b) (i, j, c) =
    (if Z.abs (x - y) <=? k then (S i, S j, S c)
     else if x - y >? k then (i, S j, c) else (S i, j, c)) ∧
  Temp.body k (sort a) (sort b) (i, j, c) =
    (if Z.abs (x - y) <=? k then (S i, S j, S c)
     else if x <? y then (S i, j, c) else (i, S j, c)).
Proof.
  intros Ha Hb Hi Hj x y.
  assert (- 2 ^ 30 ≤ x ≤ 2 ^ 30 - 1) as Hx.
  { unfold in_range in Ha. rewrite <-(sort_perm a) in Ha.
    rewrite Forall_forall in Ha. apply Ha, list_elem_of_lookup_total_2.
    by rewrite sort_length. }
  assert (- 2 ^ 30 ≤ y ≤ 2 ^ 30 - 1) as Hy.
  { unfold in_range in Hb. rewrite <-(sort_perm b) in Hb.
    rewrite Forall_forall in Hb. apply Hb, list_elem_of_lookup_total_2.
    by rewrite sort_length. }
  unfold Apartments.body, Temp.body. fold x y. clearbody x y.
  assert (sub32 x y = x - y) as Hs by (unwrap; lia).
  assert (abs32 (sub32 x y) = Z.abs (x - y)) as Habs by (unwrap; lia).
  rewrite Habs, Hs. split_and!; try done. unwrap. lia.
Qed.

Lemma C10_exact_test_witness :
  let x := sort [1073741823; 5] !!! 1%nat in
  let y := sort [7; -1073741824] !!! 0%nat in
  sub32 x y = x - y ∧ sub32 x y ≠ int_min ∧
  abs32 (sub32 x y) = Z.abs (x - y) ∧
  (abs32 (sub32 x y) <=? 3) = (Z.abs (x - y) <=? 3) ∧
  Apartments.body 3 (sort [1073741823; 5]) (sort [7; -1073741824])
      (1, 0, 0)%nat =
    (if Z.abs (x - y) <=? 3 then (2, 1, 1)%nat
     else if x - y >? 3 then (1, 1, 0)%nat else (2, 0, 0)%nat) ∧
  Temp.body 3 (sort [1073741823; 5]) (sort [7; -1073741824])
      (1, 0, 0)%nat =
    (if Z.abs (x - y) <=? 3 then (2, 1, 1)%nat
     else if x <? y then (2, 0, 0)%nat else (1, 1, 0)%nat).
Proof.
  apply (C10_exact_test 3 [1073741823; 5] [7; -1073741824] 1 0 0).
  - repeat constructor; simpl; lia.
  - repeat constructor; simpl; lia.
  - simpl. lia.
  - simpl. lia.
Defined.

(** ** Relating two loops *)

Section WhileRel.
Context {S : Type}.
Variable guard guard' : S → bool.
Variable step step' : S → S.

(** Two bodies that agree wherever the condition holds give the same loop. *)
Lemma while_ext fuel s :
  (∀ s, guard s = true → step s = step' s) →
  while guard step fuel s = while guard step' fuel s.
Proof.
  intros Heq. revert s. induction fuel as [|f IH]; intros s;
    rewrite !(while_unfold _ _ _ s); destruct (guard s) eqn:Hg; try done.
  by rewrite <-Heq, IH.
Qed.

(** A state transformation that commutes with condition and body commutes
    with the loop. *)
Lemma while_sim (f : S → S) fuel s :
  (∀ s, guard' (f s) = guard s) →
  (∀ s, guard s = true → step' (f s) = f (step s)) →
  while guard' step' fuel (f s) = f <$> while guard step fuel s.
Proof.
  intros Hg Hs. revert s. induction fuel as [|f' IH]; intros s;
    rewrite (while_unfold _ _ _ s), (while_unfold _ _ _ (f s)), Hg;
    destruct (guard s) eqn:Hgs; try done.
  by rewrite Hs, IH.
Qed.

End WhileRel.

(** ** Symmetry of one iteration *)

Lemma cond_swap n m s : cond m n (swap s) = cond n m s.
Proof. destruct s as [[i j] c]. apply andb_comm. Qed.

Lemma result_swap s : result (swap s) = result s.
Proof. by destruct s as [[i j] c]. Qed.

(** With [0 <= k], a failed match test means the wrapped difference is
    neither 0 nor [int_min], so exactly one of its two orientations
    exceeds [k]. *)
Lemma apartments_body_swap k a b s :
  0 ≤ k → Apartments.body k b a (swap s) = swap (Apartments.body k a b s).
Proof.
  intros Hk. destruct s as [[i j] c]. unfold Apartments.body, swap.
  generalize (a !!! i) (b !!! j). intros x y.
  rewrite (abs32_sub32_sym y x).
  destruct (Z.leb_spec (abs32 (sub32 x y)) k) as [|Hfail]; [done|].
  destruct (sub32_opp x y) as [[Hx Hy]|[Hd Hy]].
  - rewrite Hx, abs32_int_min in Hfail. unfold int_min in Hfail. lia.
  - rewrite Hy. rewrite abs32_exact in Hfail by done.
    rewrite !Z.gtb_ltb.
    destruct (Z.ltb_spec k (sub32 x y)), (Z.ltb_spec k (- sub32 x y));
      try done; lia.
Qed.

Lemma temp_body_swap k a b s :
  0 ≤ k → Temp.body k b a (swap s) = swap (Temp.body k a b s).
Proof.
  intros Hk. destruct s as [[i j] c]. unfold Temp.body, swap.
  generalize (a !!! i) (b !!! j). intros x y.
  rewrite (abs32_sub32_sym y x).
  destruct (Z.leb_spec (abs32 (sub32 x y)) k) as [|Hfail]; [done|].
  destruct (Z.ltb_spec x y), (Z.ltb_spec y x); try done; try lia.
  assert (x = y) as -> by lia.
  revert Hfail. unwrap. lia.
Qed.

(** C5. Symmetry: for a tolerance [k >= 0], exchanging the applicants and
    the apartments gives the same printed count (in both programs). *)
Theorem C5_symmetry k a b :
  0 ≤ k →
  Temp.main k a b = Temp.main k b a ∧
  Apartments.main k a b = Apartments.main k b a.
Proof.
  intros Hk. unfold Temp.main, Apartments.main. split.
  - rewrite (Nat.add_comm (length b)). change init with (swap init) at 2.
    rewrite (while_sim (cond (length a) (length b)) _
               (Temp.body k (sort a) (sort b)) _ swap).
    + rewrite <-option_fmap_compose. apply option_fmap_ext.
      intros s. simpl. by rewrite result_swap.
    + apply cond_swap.
    + intros s _. by apply temp_body_swap.
  - rewrite (Nat.add_comm (length b)). change init with (swap init) at 2.
    rewrite (while_sim (cond (length a) (length b)) _
               (Apartments.body k (sort a) (sort b)) _ swap).
    + rewrite <-option_fmap_compose. apply option_fmap_ext.
      intros s. simpl. by rewrite result_swap.
    + apply cond_swap.
    + intros s _. by apply apartments_body_swap.
Qed.

Lemma C5_symmetry_witness :
  0 ≤ 2 ∧
  Temp.main 2 [4; 9; 1] [3; 8] = Temp.main 2 [3; 8] [4; 9; 1] ∧
  Apartments.main 2 [4; 9; 1] [3; 8] = Apartments.main 2 [3; 8] [4; 9; 1].
Proof.
  split; [lia|]. apply (C5_symmetry 2 [4; 9; 1] [3; 8]). lia.
Defined.

(** ** Matchings on values *)

Lemma vmatching_perm k a a' b b' V V' :
  a ≡ₚ a' → b ≡ₚ b' → V ≡ₚ V' → vmatching k a b V → vmatching k a' b' V'.
Proof.
  intros Ha Hb HV (H1 & H2 & H3). split_and!.
  - by rewrite <-HV, <-Ha.
  - by rewrite <-HV, <-Hb.
  - by rewrite <-HV.
Qed.

Lemma vmatching_nil k a b : vmatching k a b [] .
Proof. split_and!; [apply submseteq_nil_l..|constructor]. Qed.

Lemma vmatching_nil_l k b V : vmatching k [] b V → V = [].
Proof. intros (H1 & _). apply submseteq_nil_r in H1. by apply fmap_nil_inv in H1. Qed.

Lemma vmatching_nil_r k a V : vmatching k a [] V → V = [].
Proof. intros (_ & H2 & _). apply submseteq_nil_r in H2. by apply fmap_nil_inv in H2. Qed.

Lemma vmatching_cons_l k x a b V : vmatching k a b V → vmatching k (x :: a) b V.
Proof. intros (H1 & H2 & H3). split_and!; [by apply submseteq_cons|done..]. Qed.

Lemma vmatching_cons_r k y a b V : vmatching k a b V → vmatching k a (y :: b) V.
Proof. intros (H1 & H2 & H3). split_and!; [done|by apply submseteq_cons|done]. Qed.

Lemma vmatching_push k x y a b V :
  Z.abs (x - y) ≤ k → vmatching k a b V →
  vmatching k (x :: a) (y :: b) ((x, y) :: V).
Proof.
  intros Hxy (H1 & H2 & H3). split_and!; simpl.
  - by apply submseteq_skip.
  - by apply submseteq_skip.
  - by constructor.
Qed.

(** Taking the first applicant away costs a matching at most the pair that
    uses it. *)
Lemma vmatching_uncons_l k x a b V :
  vmatching k (x :: a) b V →
  vmatching k a b V ∨
  ∃ y V', V ≡ₚ (x, y) :: V' ∧ vmatching k a b V' ∧
          y :: V'.*2 ⊆+ b ∧ Z.abs (x - y) ≤ k.
Proof.
  intros (H1 & H2 & H3).
  destruct (proj1 (submseteq_cons_r _ _ _) H1) as [?|(l' & Hl' & _)];
    [by left|right].
  assert (x ∈ V.*1) as Hx by (rewrite Hl'; left).
  apply list_elem_of_fmap in Hx as ([x' y] & -> & Hv).
  apply elem_of_Permutation in Hv as (V' & HV). simpl in *.
  rewrite HV in H1, H2, H3. simpl in *. apply Forall_cons in H3 as [Hxy H3].
  exists y, V'. split_and!; [done| |done|done].
  split_and!; [|etrans; [by apply submseteq_cons|exact H2]|done].
  by apply (submseteq_app_inv_l _ _ [x']).
Qed.

Lemma vmatching_uncons_r k y a b V :
  vmatching k a (y :: b) V →
  vmatching k a b V ∨
  ∃ x V', V ≡ₚ (x, y) :: V' ∧ vmatching k a b V' ∧
          x :: V'.*1 ⊆+ a ∧ Z.abs (x - y) ≤ k.
Proof.
  intros (H1 & H2 & H3).
  destruct (proj1 (submseteq_cons_r _ _ _) H2) as [?|(l' & Hl' & _)];
    [by left|right].
  assert (y ∈ V.*2) as Hy by (rewrite Hl'; left).
  apply list_elem_of_fmap in Hy as ([x y'] & -> & Hv).
  apply elem_of_Permutation in Hv as (V' & HV). simpl in *.
  rewrite HV in H1, H2, H3. simpl in *. apply Forall_cons in H3 as [Hxy H3].
  exists x, V'. split_and!; [done| |done|done].
  split_and!; [etrans; [by apply submseteq_cons|exact H1]| |done].
  by apply (submseteq_app_inv_l _ _ [y']).
Qed.

(** An applicant that fits no apartment is in no pair. *)
Lemma vmatching_skip_l k x a b V :
  (∀ y, y ∈ b → ¬ Z.abs (x - y) ≤ k) →
  vmatching k (x :: a) b V → vmatching k a b V.
Proof.
  intros Hno [HV|(y & V' & _ & _ & Hy & Hxy)]%vmatching_uncons_l; [done|].
  destruct (Hno y); [|done]. eapply elem_of_submseteq; [|exact Hy]. left.
Qed.

Lemma vmatching_skip_r k y a b V :
  (∀ x, x ∈ a → ¬ Z.abs (x - y) ≤ k) →
  vmatching k a (y :: b) V → vmatching k a b V.
Proof.
  intros Hno [HV|(x & V' & _ & _ & Hx & Hxy)]%vmatching_uncons_r; [done|].
  destruct (Hno x); [|done]. eapply elem_of_submseteq; [|exact Hx]. left.
Qed.

(** Exchange argument: when the least applicant [x] and the least apartment
    [y] are taken away, a matching loses at most one pair.  If both were
    paired, with [y0] and [x'], then [x'] and [y0] fit each other. *)
Lemma vmatching_pop k x y a b V :
  Forall (Z.le x) a → Forall (Z.le y) b →
  vmatching k (x :: a) (y :: b) V →
  ∃ V', vmatching k a b V' ∧ (length V ≤ S (length V'))%nat.
Proof.
  intros Hx Hy [HV|(y0 & V1 & HV & HV1 & Hy0 & Hxy0)]%vmatching_uncons_l.
  - apply vmatching_uncons_r in HV as [HV|(x' & V' & HV & HV' & _)].
    + exists V. split; [done|lia].
    + exists V'. split; [done|]. rewrite HV. simpl. lia.
  - apply vmatching_uncons_r in HV1 as [HV1|(x' & V2 & HV1 & HV2 & Hx' & Hx'y)].
    + exists V1. split; [done|]. rewrite HV. simpl. lia.
    + exists ((x', y0) :: V2). split; [|rewrite HV, HV1; simpl; lia].
      rewrite HV1 in Hy0. simpl in Hy0.
      rewrite Permutation_swap in Hy0.
      apply (submseteq_app_inv_l _ _ [y]) in Hy0.
      destruct HV2 as (_ & _ & HF). split_and!; simpl; [done|done|].
      constructor; [|done]. simpl.
      assert (x ≤ x') as Hxx'.
      { rewrite Forall_forall in Hx. apply Hx.
        eapply elem_of_submseteq; [|exact Hx']. left. }
      assert (y ≤ y0) as Hyy0.
      { rewrite Forall_forall in Hy. apply Hy.
        eapply elem_of_submseteq; [|exact Hy0]. left. }
      lia.
Qed.

(** ** The sweep computes a maximum matching of the sorted vectors *)

Lemma cond_lookup (a b : list Z) i j c :
  cond (length a) (length b) (i, j, c) = true →
  ∃ x y, a !! i = Some x ∧ b !! j = Some y ∧
         a !!! i = x ∧ b !!! j = y ∧ x ∈ a ∧ y ∈ b.
Proof.
  intros [Hi Hj]%cond_true.
  destruct (lookup_lt_is_Some_2 a i Hi) as [x Hx].
  destruct (lookup_lt_is_Some_2 b j Hj) as [y Hy].
  exists x, y. split_and!; try done.
  - by apply list_lookup_total_correct.
  - by apply list_lookup_total_correct.
  - by eapply list_elem_of_lookup_2.
  - by eapply list_elem_of_lookup_2.
Qed.

(** From any loop state on, the count grows by the maximum size of a
    matching between the applicants from [i] on and the apartments from
    [j] on. *)
Lemma temp_sweep_optimal k a b fuel i j c s' :
  StronglySorted Z.le a → StronglySorted Z.le b → no_overflow a b →
  while (cond (length a) (length b)) (Temp.body k a b) fuel (i, j, c)
    = Some s' →
  ∃ r, result s' = (c + r)%nat ∧
       (∃ V, vmatching k (drop i a) (drop j b) V ∧ length V = r) ∧
       (∀ V, vmatching k (drop i a) (drop j b) V → (length V ≤ r)%nat).
Proof.
  intros Ha Hb Hno. revert i j c.
  induction fuel as [|f IH]; intros i j c; rewrite while_unfold;
    destruct (cond _ _ _) eqn:Hc; try done.
  1,3: intros [= <-]; exists O; simpl; split_and!;
    [lia|exists []; split; [apply vmatching_nil|done]|];
    intros V HV; apply cond_false in Hc as [Hi|Hj];
    [rewrite (drop_ge a) in HV by done; by rewrite (vmatching_nil_l _ _ _ HV)
    |rewrite (drop_ge b) in HV by done; by rewrite (vmatching_nil_r _ _ _ HV)].
  destruct (cond_lookup _ _ _ _ _ Hc) as (x & y & Hx & Hy & Hx' & Hy' & Hxa & Hyb).
  destruct (sorted_drop a i x Ha Hx) as [Hda Hxle].
  destruct (sorted_drop b j y Hb Hy) as [Hdb Hyle].
  pose proof (abs32_sub32_exact x y (Hno x y Hxa Hyb)) as Habs.
  unfold Temp.body. rewrite Hx', Hy', Habs, Hda, Hdb.
  destruct (Z.leb_spec (Z.abs (x - y)) k) as [Hfit|Hfail];
    [|destruct (Z.ltb_spec x y) as [Hlt|Hge]];
    intros (r & Hr & (V & HV & HVr) & Hmax)%IH.
  - exists (S r). split_and!; [lia| |].
    + exists ((x, y) :: V). split; [by apply vmatching_push|simpl; lia].
    + intros W (W' & HW' & Hlen)%vmatching_pop; [|done..].
      apply Hmax in HW'. lia.
  - rewrite Hdb in HV, Hmax. exists r. split_and!; [done| |].
    + exists V. split; [by apply vmatching_cons_l|done].
    + intros W HW. apply Hmax. revert HW. apply vmatching_skip_l.
      intros y' [->|Hy'']%elem_of_cons; [lia|].
      rewrite Forall_forall in Hyle. apply Hyle in Hy''. lia.
  - rewrite Hda in HV, Hmax. exists r. split_and!; [done| |].
    + exists V. split; [by apply vmatching_cons_r|done].
    + intros W HW. apply Hmax. revert HW. apply vmatching_skip_r.
      intros x' [->|Hx'']%elem_of_cons; [lia|].
      rewrite Forall_forall in Hxle. apply Hxle in Hx''. lia.
Qed.

(** Without overflow and with [0 <= k] the two bodies take the same
    branch. *)
Lemma bodies_agree k a b s :
  0 ≤ k → no_overflow a b →
  cond (length a) (length b) s = true →
  Apartments.body k a b s = Temp.body k a b s.
Proof.
  intros Hk Hno. destruct s as [[i j] c]. intros Hc.
  destruct (cond_lookup _ _ _ _ _ Hc) as (x & y & _ & _ & Hx & Hy & Hxa & Hyb).
  pose proof (Hno x y Hxa Hyb) as Hr.
  unfold Apartments.body, Temp.body. rewrite Hx, Hy.
  rewrite abs32_sub32_exact by done.
  destruct (Z.leb_spec (Z.abs (x - y)) k) as [|Hfail]; [done|].
  rewrite sub32_exact by lia. rewrite Z.gtb_ltb.
  destruct (Z.ltb_spec k (x - y)), (Z.ltb_spec x y); try done; lia.
Qed.

Lemma no_overflow_sort a b : no_overflow a b → no_overflow (sort a) (sort b).
Proof.
  intros Hno x y Hx Hy. rewrite sort_perm in Hx, Hy. by apply Hno.
Qed.

Lemma in_range_no_overflow a b : in_range a → in_range b → no_overflow a b.
Proof.
  unfold in_range. rewrite !Forall_forall. intros Ha Hb x y Hx Hy.
  apply Ha in Hx. apply Hb in Hy. unwrap. lia.
Qed.

Lemma mains_agree k a b :
  0 ≤ k → no_overflow a b → Apartments.main k a b = Temp.main k a b.
Proof.
  intros Hk Hno. unfold Apartments.main, Temp.main. f_equal.
  apply while_ext. intros s Hs. apply bodies_agree; [done| |].
  - by apply no_overflow_sort.
  - by rewrite !sort_length.
Qed.

(** ** Matchings on positions and matchings on values *)

Section Embedding.
Context {A : Type}.
Implicit Types l a : list A.

Lemma fmap_submseteq {B} (f : A → B) l a : l ⊆+ a → f <$> l ⊆+ f <$> a.
Proof.
  induction 1; simpl.
  - done.
  - by apply submseteq_skip.
  - apply submseteq_swap.
  - by apply submseteq_cons.
  - by etrans.
Qed.

Lemma embeds_lt l a f t :
  embeds l a f → (t < length l)%nat → (f t < length a)%nat.
Proof.
  intros [_ Hf] Ht. destruct (lookup_lt_is_Some_2 l t Ht) as [x Hx].
  apply Hf in Hx. by eapply lookup_lt_Some.
Qed.

(** A sub-multiset sits at distinct positions of the larger list. *)
Lemma submseteq_embeds l a : l ⊆+ a → ∃ f, embeds l a f.
Proof.
  induction 1 as [|x l1 l2 _ [f Hf]|x y l|x l1 l2 _ [f Hf]
                 |l1 l2 l3 _ [f Hf] _ [g Hg]].
  - exists id. split; [simpl; lia|done].
  - exists (λ t, match t with O => O | S t => S (f t) end).
    destruct Hf as [Hinj Hval]. split.
    + intros [|t] [|t'] Ht Ht' Heq; simpl in *; try done.
      f_equal. apply Hinj; lia.
    + intros [|t] z; simpl; [done|]. apply Hval.
  - exists (λ t, match t with O => 1%nat | S O => O | _ => t end). split.
    + intros [|[|t]] [|[|t']] _ _ Heq; simpl in *; done.
    + intros [|[|t]] z; simpl; done.
  - exists (λ t, S (f t)). destruct Hf as [Hinj Hval]. split.
    + intros t t' Ht Ht' [= Heq]. by apply Hinj.
    + intros t z Hz. simpl. by apply Hval.
  - exists (g ∘ f). split.
    + intros t t' Ht Ht' Heq. simpl in Heq.
      pose proof (embeds_lt _ _ _ t Hf Ht) as Hft.
      pose proof (embeds_lt _ _ _ t' Hf Ht') as Hft'.
      destruct Hf as [Hinj _]. apply Hinj; [done..|].
      destruct Hg as [Hinj' _]. by apply Hinj'.
    + intros t z Hz. simpl. apply Hg, Hf, Hz.
Qed.

End Embedding.

Lemma lookup_total_seq_fmap (a : list Z) :
  (λ p, a !!! p) <$> seq 0 (length a) = a.
Proof.
  apply list_eq. intros p. rewrite list_lookup_fmap.
  destruct (decide (p < length a)%nat) as [Hp|Hp].
  - rewrite lookup_seq_lt by done. simpl.
    by rewrite list_lookup_lookup_total_lt.
  - rewrite lookup_seq_ge, lookup_ge_None_2 by lia. done.
Qed.

(** Distinct positions of [a] hold a sub-multiset of [a]. *)
Lemma positions_submseteq (a : list Z) (I : list nat) :
  NoDup I → (∀ p, p ∈ I → (p < length a)%nat) →
  (λ p, a !!! p) <$> I ⊆+ a.
Proof.
  intros Hnd Hlt. trans ((λ p, a !!! p) <$> seq 0 (length a)).
  2: by rewrite lookup_total_seq_fmap.
  apply fmap_submseteq, NoDup_submseteq; [done|].
  intros p Hp. apply elem_of_seq. split; [lia|]. by apply Hlt.
Qed.

Lemma values_fst a b M : (values a b M).*1 = (λ p, a !!! p) <$> M.*1.
Proof. unfold values. by rewrite <-!list_fmap_compose. Qed.

Lemma values_snd a b M : (values a b M).*2 = (λ q, b !!! q) <$> M.*2.
Proof. unfold values. by rewrite <-!list_fmap_compose. Qed.

Lemma matching_values k a b M :
  matching k a b M → vmatching k a b (values a b M).
Proof.
  intros (H1 & H2 & H3). split_and!.
  - rewrite values_fst. apply positions_submseteq; [done|].
    intros p ([p' q] & -> & Hpq)%list_elem_of_fmap.
    destruct (H3 _ _ Hpq) as (x & y & Hx & _). by eapply lookup_lt_Some.
  - rewrite values_snd. apply positions_submseteq; [done|].
    intros q ([p q'] & -> & Hpq)%list_elem_of_fmap.
    destruct (H3 _ _ Hpq) as (x & y & _ & Hy & _). by eapply lookup_lt_Some.
  - apply Forall_fmap, Forall_forall. intros [p q] Hpq. simpl.
    destruct (H3 _ _ Hpq) as (x & y & Hx & Hy & Hxy).
    by rewrite (list_lookup_total_correct _ _ _ Hx),
               (list_lookup_total_correct _ _ _ Hy).
Qed.

Lemma values_length a b M : length (values a b M) = length M.
Proof. apply length_fmap. Qed.

Lemma vmatching_positions k a b V :
  vmatching k a b V → ∃ M, matching k a b M ∧ length M = length V.
Proof.
  intros (H1 & H2 & H3).
  destruct (submseteq_embeds _ _ H1) as [f Hf].
  destruct (submseteq_embeds _ _ H2) as [g Hg].
  unfold embeds in Hf, Hg. rewrite length_fmap in Hf, Hg.
  exists ((λ t, (f t, g t)) <$> seq 0 (length V)). split.
  2: by rewrite length_fmap, length_seq.
  split_and!.
  - rewrite <-list_fmap_compose. apply NoDup_fmap_2_strong; [|apply NoDup_seq].
    intros t t' [_ Ht]%elem_of_seq [_ Ht']%elem_of_seq Heq.
    destruct Hf as [Hinj _]. apply Hinj; [lia..|done].
  - rewrite <-list_fmap_compose. apply NoDup_fmap_2_strong; [|apply NoDup_seq].
    intros t t' [_ Ht]%elem_of_seq [_ Ht']%elem_of_seq Heq.
    destruct Hg as [Hinj _]. apply Hinj; [lia..|done].
  - intros p q (t & [= -> ->] & [_ Ht]%elem_of_seq)%list_elem_of_fmap.
    destruct (lookup_lt_is_Some_2 V t) as [[x y] Hv]; [lia|].
    exists x, y. split_and!.
    + apply (proj2 Hf). by rewrite list_lookup_fmap, Hv.
    + apply (proj2 Hg). by rewrite list_lookup_fmap, Hv.
    + rewrite Forall_lookup in H3. apply (H3 _ _ Hv).
Qed.

(** A larger tolerance keeps every matching. *)
Lemma matching_mono k1 k2 a b M :
  k1 ≤ k2 → matching k1 a b M → matching k2 a b M.
Proof.
  intros Hk (H1 & H2 & H3). split_and!; [done..|].
  intros p q (x & y & Hx & Hy & Hxy)%H3. exists x, y. split_and!; [done..|lia].
Qed.

Lemma max_matching_unique k a b c c' :
  max_matching k a b c → max_matching k a b c' → c = c'.
Proof.
  intros [(M & HM & <-) Hmax] [(M' & HM' & <-) Hmax'].
  apply Hmax' in HM. apply Hmax in HM'. lia.
Qed.

(** ** The printed count is the maximum cardinality of a matching *)

Lemma temp_main_max k a b :
  no_overflow a b → ∃ c, Temp.main k a b = Some c ∧ max_matching k a b c.
Proof.
  intros Hno. unfold Temp.main.
  destruct (sweep_returns (length a) (length b) _
              (temp_body_advances k (sort a) (sort b))) as (t & _ & _ & _ & Hw).
  rewrite Hw. eexists; split; [done|]. rewrite <-(sort_length a) in Hw at 1.
  rewrite <-(sort_length b) in Hw at 1.
  apply temp_sweep_optimal in Hw as (r & -> & (V & HV & HVr) & Hmax);
    [|apply sort_sorted..|by apply no_overflow_sort].
  rewrite !drop_0 in HV, Hmax. simpl. split.
  - apply (vmatching_perm _ _ a _ b _ V) in HV; [|apply sort_perm..|done].
    apply vmatching_positions in HV as (M & HM & HMl).
    exists M. split; [done|]. lia.
  - intros M HM%matching_values. rewrite <-(values_length a b).
    apply Hmax. revert HM. by apply vmatching_perm; [symmetry; apply sort_perm..|].
Qed.

(** C1 (as stated) fails on [int] inputs whose difference wraps: with
    [k = 300000000], applicant [2000000000] and apartment [-2000000000],
    the [int] difference is [-294967296], both programs print 1, and the
    only matching is the empty one. *)
Lemma C1_counterexample :
  0 ≤ 300000000 ∧
  Apartments.main 300000000 [2000000000] [-2000000000] = Some 1%nat ∧
  Temp.main 300000000 [2000000000] [-2000000000] = Some 1%nat ∧
  max_matching 300000000 [2000000000] [-2000000000] 0 ∧
  ¬ max_matching 300000000 [2000000000] [-2000000000] 1.
Proof.
  assert (∀ M, matching 300000000 [2000000000] [-2000000000] M → M = [])
    as Hnone.
  { intros [|[p q] M] (_ & _ & H); [done|].
    destruct (H p q) as (x & y & Hx & Hy & Hxy); [left|].
    destruct p; [|by destruct p]. destruct q; [|by destruct q].
    simpl in *. simplify_eq. lia. }
  split_and!; [lia|reflexivity|reflexivity| |].
  - split.
    + exists []. split; [|done]. split_and!; [constructor..|].
      intros p q Hpq. by apply elem_of_nil in Hpq.
    + intros M ->%Hnone. done.
  - intros [(M & ->%Hnone & Hlen) _]. done.
Qed.

(** C1 (amended). For every input with [k >= 0] in which no
    applicant-apartment difference overflows [int] or equals [int_min]
    (in particular when all values lie in [[-2^30, 2^30 - 1]]), both
    programs print the maximum cardinality of a set of applicant-apartment
    pairs whose values differ by at most [k] and in which no applicant and
    no apartment occurs twice. *)
Theorem C1_maximum_matching k a b :
  0 ≤ k → no_overflow a b →
  ∃ c, Apartments.main k a b = Some c ∧ Temp.main k a b = Some c ∧
       max_matching k a b c.
Proof.
  intros Hk Hno. destruct (temp_main_max k a b Hno) as (c & Hc & Hmax).
  exists c. split_and!; [|done..]. by rewrite mains_agree.
Qed.

Lemma C1_maximum_matching_witness :
  0 ≤ 1 ∧ no_overflow [1; 5] [2; 6] ∧
  ∃ c, Apartments.main 1 [1; 5] [2; 6] = Some c ∧
       Temp.main 1 [1; 5] [2; 6] = Some c ∧
       max_matching 1 [1; 5] [2; 6] c.
Proof.
  assert (no_overflow [1; 5] [2; 6]) as Hno.
  { apply in_range_no_overflow; repeat constructor; simpl; lia. }
  split; [lia|]. split; [exact Hno|].
  apply (C1_maximum_matching 1 [1; 5] [2; 6]); [lia|exact Hno].
Defined.

(** C2 (as stated) fails when a difference wraps: with [k = 0], applicant
    [2000000000] and apartments [-2000000000 2000000000], the first
    difference is [-294967296] on [int]; the test [a[i] - b[j] > k] then
    advances [i] and the loop ends with 0, while the test
    [applicants[i] < apartments[j]] advances [j] and the next pair matches. *)
Lemma C2_counterexample :
  Apartments.main 0 [2000000000] [-2000000000; 2000000000] = Some 0%nat ∧
  Temp.main 0 [2000000000] [-2000000000; 2000000000] = Some 1%nat ∧
  Apartments.body 0 [2000000000] [-2000000000; 2000000000] init
    = (1, 0, 0)%nat ∧
  Temp.body 0 [2000000000] [-2000000000; 2000000000] init
    = (0, 1, 0)%nat.
Proof. split_and!; reflexivity. Qed.

(** C2 (amended). For every input with [k >= 0] in which no
    applicant-apartment difference overflows [int] or equals [int_min],
    the two loop bodies advance the same pointer in every state inside the
    loop, and the two programs print the same count. *)
Theorem C2_equivalence k a b :
  0 ≤ k → no_overflow a b →
  (∀ s, cond (length a) (length b) s = true →
        Apartments.body k (sort a) (sort b) s = Temp.body k (sort a) (sort b) s) ∧
  Apartments.main k a b = Temp.main k a b.
Proof.
  intros Hk Hno. split; [|by apply mains_agree].
  intros s Hs. apply bodies_agree; [done|by apply no_overflow_sort|].
  by rewrite !sort_length.
Qed.

Lemma C2_equivalence_witness :
  0 ≤ 2 ∧ no_overflow [7; 1; 4] [9; 3] ∧
  (∀ s, cond 3 2 s = true →
        Apartments.body 2 (sort [7; 1; 4]) (sort [9; 3]) s
        = Temp.body 2 (sort [7; 1; 4]) (sort [9; 3]) s) ∧
  Apartments.main 2 [7; 1; 4] [9; 3] = Temp.main 2 [7; 1; 4] [9; 3].
Proof.
  assert (no_overflow [7; 1; 4] [9; 3]) as Hno.
  { apply in_range_no_overflow; repeat constructor; simpl; lia. }
  split; [lia|]. split; [exact Hno|].
  apply (C2_equivalence 2 [7; 1; 4] [9; 3]); [lia|exact Hno].
Defined.

(** C3 (as stated) fails when [abs] meets [int_min]: with applicants
    [-2147483647 -2147483646] and apartments [-2147483648 1 2], tolerance 0
    skips the first apartment and then counts two pairs of difference
    [int_min] (whose [abs] is [int_min <= 0]), while tolerance 1 pairs
    the first applicant with the first apartment and counts only that. *)
Lemma C3_counterexample :
  0 ≤ 0 ≤ 1 ∧
  Temp.main 0 [-2147483647; -2147483646] [-2147483648; 1; 2] = Some 2%nat ∧
  Temp.main 1 [-2147483647; -2147483646] [-2147483648; 1; 2] = Some 1%nat.
Proof. split_and!; [lia|lia|reflexivity|reflexivity]. Qed.

(** C3 (amended). Monotonicity in the tolerance: for sequences in which no
    applicant-apartment difference overflows [int] or equals [int_min], and
    tolerances [0 <= k1 <= k2], the count printed with [k2] is at least the
    count printed with [k1] (in both programs). *)
Theorem C3_monotone k1 k2 a b :
  0 ≤ k1 → k1 ≤ k2 → no_overflow a b →
  (∃ c1 c2, Temp.main k1 a b = Some c1 ∧ Temp.main k2 a b = Some c2 ∧
            (c1 ≤ c2)%nat) ∧
  (∃ c1 c2, Apartments.main k1 a b = Some c1 ∧
            Apartments.main k2 a b = Some c2 ∧ (c1 ≤ c2)%nat).
Proof.
  intros Hk1 Hk Hno.
  destruct (temp_main_max k1 a b Hno) as (c1 & Hc1 & (M & HM & HMl) & _).
  destruct (temp_main_max k2 a b Hno) as (c2 & Hc2 & _ & Hmax).
  assert (c1 ≤ c2)%nat as Hle.
  { rewrite <-HMl. by apply Hmax, (matching_mono k1). }
  split; exists c1, c2; [done|].
  by rewrite !mains_agree by (done || lia).
Qed.

Lemma C3_monotone_witness :
  0 ≤ 0 ∧ 0 ≤ 4 ∧ no_overflow [1; 5] [3; 9] ∧
  (∃ c1 c2, Temp.main 0 [1; 5] [3; 9] = Some c1 ∧
            Temp.main 4 [1; 5] [3; 9] = Some c2 ∧ (c1 ≤ c2)%nat) ∧
  (∃ c1 c2, Apartments.main 0 [1; 5] [3; 9] = Some c1 ∧
            Apartments.main 4 [1; 5] [3; 9] = Some c2 ∧ (c1 ≤ c2)%nat).
Proof.
  assert (no_overflow [1; 5] [3; 9]) as Hno.
  { apply in_range_no_overflow; repeat constructor; simpl; lia. }
  split; [lia|]. split; [lia|]. split; [exact Hno|].
  apply (C3_monotone 0 4 [1; 5] [3; 9]); [lia|lia|exact Hno].
Defined.

(** ** Further properties of the sweep *)

(** *** Runs in which every test, or no test, succeeds *)

Lemma apartments_body_cases k a b i j c :
  cond (length a) (length b) (i, j, c) = true →
  ∃ x y, x ∈ a ∧ y ∈ b ∧
    Apartments.body k a b (i, j, c) =
      if abs32 (sub32 x y) <=? k then (S i, S j, S c)
      else if sub32 x y >? k then (i, S j, c) else (S i, j, c).
Proof.
  intros (x & y & _ & _ & Hx & Hy & Hxa & Hyb)%cond_lookup.
  exists x, y. split_and!; [done..|]. unfold Apartments.body. by rewrite Hx, Hy.
Qed.

Lemma temp_body_cases k a b i j c :
  cond (length a) (length b) (i, j, c) = true →
  ∃ x y, x ∈ a ∧ y ∈ b ∧
    Temp.body k a b (i, j, c) =
      if abs32 (sub32 x y) <=? k then (S i, S j, S c)
      else if x <? y then (S i, j, c) else (i, S j, c).
Proof.
  intros (x & y & _ & _ & Hx & Hy & Hxa & Hyb)%cond_lookup.
  exists x, y. split_and!; [done..|]. unfold Temp.body. by rewrite Hx, Hy.
Qed.

(** A loop that counts on the diagonal [i = j = count] walks it to the
    shorter end. *)
Lemma sweep_diagonal n m step fuel i :
  (∀ i, (i < n)%nat → (i < m)%nat → step (i, i, i) = (S i, S i, S i)) →
  (n `min` m - i ≤ fuel)%nat → (i ≤ n `min` m)%nat →
  result <$> while (cond n m) step fuel (i, i, i) = Some (n `min` m)%nat.
Proof.
  intros Hstep. revert i. induction fuel as [|f IH]; intros i Hf Hi;
    rewrite while_unfold; destruct (cond n m (i, i, i)) eqn:Hc.
  - apply cond_true in Hc. lia.
  - apply cond_false in Hc. simpl. f_equal. lia.
  - apply cond_true in Hc as [Hn Hm]. rewrite Hstep by done.
    apply IH; lia.
  - apply cond_false in Hc. simpl. f_equal. lia.
Qed.

(** A loop whose iterations never count returns 0. *)
Lemma sweep_no_match n m step :
  (∀ s, advances s (step s)) →
  (∀ s, cond n m s = true → result (step s) = result s) →
  result <$> while (cond n m) step (n + m) init = Some 0%nat.
Proof.
  intros Hadv Hkeep.
  destruct (sweep_returns n m step Hadv) as (t & _ & _ & _ & Hw).
  rewrite Hw. simpl. f_equal.
  apply (while_invariant _ _ (λ s, result s = 0%nat) _ _ _) in Hw; [done| |done].
  intros s Hs Hc. by rewrite Hkeep.
Qed.

Lemma mains_all_fit k a b :
  (∀ x y, x ∈ a → y ∈ b → abs32 (sub32 x y) ≤ k) →
  Apartments.main k a b = Some (length a `min` length b)%nat ∧
  Temp.main k a b = Some (length a `min` length b)%nat.
Proof.
  intros Hfit. unfold Apartments.main, Temp.main.
  split; apply (sweep_diagonal _ _ _ _ O); try lia; intros i Hi Hj.
  - destruct (apartments_body_cases k (sort a) (sort b) i i i)
      as (x & y & Hx & Hy & ->).
    { rewrite !sort_length. by apply cond_true. }
    rewrite sort_perm in Hx, Hy.
    by destruct (Z.leb_spec (abs32 (sub32 x y)) k) as [|Hlt];
      [|specialize (Hfit x y Hx Hy); lia].
  - destruct (temp_body_cases k (sort a) (sort b) i i i)
      as (x & y & Hx & Hy & ->).
    { rewrite !sort_length. by apply cond_true. }
    rewrite sort_perm in Hx, Hy.
    by destruct (Z.leb_spec (abs32 (sub32 x y)) k) as [|Hlt];
      [|specialize (Hfit x y Hx Hy); lia].
Qed.

Lemma mains_none_fit k a b :
  (∀ x y, x ∈ a → y ∈ b → k < abs32 (sub32 x y)) →
  Apartments.main k a b = Some 0%nat ∧ Temp.main k a b = Some 0%nat.
Proof.
  intros Hno. unfold Apartments.main, Temp.main.
  split; apply sweep_no_match;
    [apply apartments_body_advances| |apply temp_body_advances|];
    intros [[i j] c] Hc; rewrite <-(sort_length a), <-(sort_length b) in Hc.
  - destruct (apartments_body_cases k _ _ _ _ _ Hc) as (x & y & Hx & Hy & ->).
    rewrite sort_perm in Hx, Hy. specialize (Hno x y Hx Hy).
    destruct (Z.leb_spec (abs32 (sub32 x y)) k); [lia|]. by case_match.
  - destruct (temp_body_cases k _ _ _ _ _ Hc) as (x & y & Hx & Hy & ->).
    rewrite sort_perm in Hx, Hy. specialize (Hno x y Hx Hy).
    destruct (Z.leb_spec (abs32 (sub32 x y)) k); [lia|]. by case_match.
Qed.

(** X1. When every applicant passes the match test [abs(a - b) <= k]
    (evaluated on [int]) against every apartment, both programs print
    [min(n, m)]. *)
Theorem X1_all_fit k a b :
  (∀ x y, x ∈ a → y ∈ b → abs32 (sub32 x y) ≤ k) →
  Apartments.main k a b = Some (length a `min` length b)%nat ∧
  Temp.main k a b = Some (length a `min` length b)%nat.
Proof. apply mains_all_fit. Qed.

Lemma X1_all_fit_witness :
  Apartments.main 10 [3; 8; 1] [5; 2] = Some 2%nat ∧
  Temp.main 10 [3; 8; 1] [5; 2] = Some 2%nat.
Proof.
  apply (X1_all_fit 10 [3; 8; 1] [5; 2]).
  intros x y Hx Hy. apply list_elem_of_In in Hx, Hy. simpl in Hx, Hy.
  destruct Hx as [<-|[<-|[<-|[]]]], Hy as [<-|[<-|[]]]; vm_compute; congruence.
Defined.

(** X2. With the largest tolerance, [k >= INT_MAX], every test succeeds
    whatever the values (also when a difference wraps), and both programs
    print [min(n, m)]. *)
Theorem X2_max_tolerance k a b :
  int_max ≤ k →
  Apartments.main k a b = Some (length a `min` length b)%nat ∧
  Temp.main k a b = Some (length a `min` length b)%nat.
Proof.
  intros Hk. apply mains_all_fit. intros x y _ _.
  pose proof (wrap32_bounds (Z.abs (sub32 x y))) as Hb. unfold abs32. lia.
Qed.

Lemma X2_max_tolerance_witness :
  Apartments.main 2147483647 [2000000000; -7] [-2000000000; 0; 9]
    = Some 2%nat ∧
  Temp.main 2147483647 [2000000000; -7] [-2000000000; 0; 9] = Some 2%nat.
Proof.
  apply (X2_max_tolerance 2147483647 [2000000000; -7] [-2000000000; 0; 9]).
  vm_compute. congruence.
Defined.

(** X3. When no applicant passes the match test against any apartment,
    both programs print 0. *)
Theorem X3_none_fit k a b :
  (∀ x y, x ∈ a → y ∈ b → k < abs32 (sub32 x y)) →
  Apartments.main k a b = Some 0%nat ∧ Temp.main k a b = Some 0%nat.
Proof. apply mains_none_fit. Qed.

Lemma X3_none_fit_witness :
  Apartments.main 5 [10; 40] [1; 25] = Some 0%nat ∧
  Temp.main 5 [10; 40] [1; 25] = Some 0%nat.
Proof.
  apply (X3_none_fit 5 [10; 40] [1; 25]).
  intros x y Hx Hy. apply list_elem_of_In in Hx, Hy. simpl in Hx, Hy.
  destruct Hx as [<-|[<-|[]]], Hy as [<-|[<-|[]]]; vm_compute; congruence.
Defined.

(** X4. A negative tolerance (outside the documented precondition) makes
    both programs print 0, provided no [int] difference equals [INT_MIN],
    the one value whose [abs] is negative. *)
Theorem X4_negative_tolerance k a b :
  k < 0 → (∀ x y, x ∈ a → y ∈ b → sub32 x y ≠ int_min) →
  Apartments.main k a b = Some 0%nat ∧ Temp.main k a b = Some 0%nat.
Proof.
  intros Hk Hmin. apply mains_none_fit. intros x y Hx Hy.
  specialize (Hmin x y Hx Hy). pose proof (wrap32_bounds (x - y)) as Hb.
  fold (sub32 x y) in Hb. rewrite abs32_exact; lia.
Qed.

Lemma X4_negative_tolerance_witness :
  Apartments.main (-1) [4; 4] [4] = Some 0%nat ∧
  Temp.main (-1) [4; 4] [4] = Some 0%nat.
Proof.
  apply (X4_negative_tolerance (-1) [4; 4] [4]); [lia|].
  intros x y Hx Hy. apply list_elem_of_In in Hx, Hy. simpl in Hx, Hy.
  destruct Hx as [<-|[<-|[]]], Hy as [<-|[]]; vm_compute; congruence.
Defined.

(** *** Offsets *)

Lemma sort_insert_shift d x l :
  sort_insert (x + d) (shift d l) = shift d (sort_insert x l).
Proof.
  induction l as [|y l IH]; simpl; [done|].
  destruct (Z.leb_spec x y), (Z.leb_spec (x + d) (y + d)); try lia; [done|].
  simpl. by rewrite IH.
Qed.

Lemma sort_shift d l : sort (shift d l) = shift d (sort l).
Proof.
  induction l as [|x l IH]; simpl; [done|].
  by rewrite IH, sort_insert_shift.
Qed.

Lemma shift_length d l : length (shift d l) = length l.
Proof. apply length_fmap. Qed.

Lemma shift_lookup_total d l i :
  (i < length l)%nat → shift d l !!! i = l !!! i + d.
Proof.
  intros Hi. destruct (lookup_lt_is_Some_2 l i Hi) as [x Hx].
  rewrite (list_lookup_total_correct _ _ _ Hx).
  apply list_lookup_total_correct. unfold shift.
  by rewrite list_lookup_fmap, Hx.
Qed.

Lemma sub32_shift d x y : sub32 (x + d) (y + d) = sub32 x y.
Proof. unfold sub32. f_equal. lia. Qed.

(** X5. Translation invariance: adding one and the same offset to every
    applicant and every apartment value, as long as the values before and
    after are [int]s, changes the printed count of neither program; the
    count depends on the values through their differences and their order
    only. *)
Theorem X5_translation d k a b :
  ints a → ints b → ints (shift d a) → ints (shift d b) →
  Apartments.main k (shift d a) (shift d b) = Apartments.main k a b ∧
  Temp.main k (shift d a) (shift d b) = Temp.main k a b.
Proof.
  intros _ _ _ _.
  unfold Apartments.main, Temp.main. rewrite !shift_length, !sort_shift.
  split; f_equal; apply while_ext; intros [[i j] c] [Hi Hj]%cond_true.
  - unfold Apartments.body.
    rewrite !shift_lookup_total by (by rewrite sort_length).
    by rewrite sub32_shift.
  - unfold Temp.body.
    rewrite !shift_lookup_total by (by rewrite sort_length).
    rewrite sub32_shift.
    by destruct (Z.ltb_spec (sort a !!! i) (sort b !!! j)),
      (Z.ltb_spec (sort a !!! i + d) (sort b !!! j + d)); try lia.
Qed.

Lemma X5_translation_witness :
  Apartments.main 2 (shift 2147483000 [-5; 40; 1]) (shift 2147483000 [3; 38])
    = Apartments.main 2 [-5; 40; 1] [3; 38] ∧
  Temp.main 2 (shift 2147483000 [-5; 40; 1]) (shift 2147483000 [3; 38])
    = Temp.main 2 [-5; 40; 1] [3; 38].
Proof.
  apply (X5_translation 2147483000 2 [-5; 40; 1] [3; 38]);
    repeat constructor; vm_compute; congruence.
Defined.

(** X6. When the apartments are, in some order, the applicants plus one
    fixed offset [d] with [|d| <= k] (for [d = 0]: the same values on both
    sides), both programs pair everyone and print [n]. *)
Theorem X6_offset_within_tolerance d k a b :
  Z.abs d ≤ k → Z.abs d ≤ int_max → b ≡ₚ shift d a →
  Apartments.main k a b = Some (length a) ∧ Temp.main k a b = Some (length a).
Proof.
  intros Hk Hd Hb. unfold Apartments.main, Temp.main.
  rewrite (sort_permuted b _ Hb), (Permutation_length Hb).
  rewrite shift_length, sort_shift.
  assert (∀ x, (abs32 (sub32 x (x + d)) <=? k) = true) as Hfit.
  { intros x. apply Z.leb_le. revert Hk Hd. unwrap. lia. }
  replace (Some (length a)) with (Some (length a `min` length a)%nat)
    by (f_equal; lia).
  split; apply (sweep_diagonal _ _ _ _ O); try lia; intros i Hi _.
  - unfold Apartments.body.
    rewrite shift_lookup_total by (by rewrite sort_length). by rewrite Hfit.
  - unfold Temp.body.
    rewrite shift_lookup_total by (by rewrite sort_length). by rewrite Hfit.
Qed.

Lemma X6_offset_within_tolerance_witness :
  Apartments.main 3 [7; 1; 4] [3; 9; 6] = Some 3%nat ∧
  Temp.main 3 [7; 1; 4] [3; 9; 6] = Some 3%nat.
Proof.
  apply (X6_offset_within_tolerance 2 3 [7; 1; 4] [3; 9; 6]).
  - lia.
  - vm_compute. congruence.
  - exact (Permutation_swap 9 3 [6]).
Defined.

(** *** Number of iterations *)

Lemma iter_S_r {S} (step : S → S) t s :
  iter step (Datatypes.S t) s = step (iter step t s).
Proof. revert s. induction t as [|t IH]; intros s; [done|]. apply (IH (step s)). Qed.

(** While the loop runs, the iterations done and the count add up to
    [i + j], and the count is below both pointers. *)
Lemma sweep_iterations n m step t :
  (∀ s, advances s (step s)) →
  (∀ t', (t' < t)%nat → cond n m (iter step t' init) = true) →
  let '(i, j, c) := iter step t init in
  (t + c = i + j ∧ c ≤ i ∧ c ≤ j ∧ i ≤ n ∧ j ≤ m ∧ t ≤ n + m - 1)%nat.
Proof.
  intros Hadv. induction t as [|t IH]; intros Hrun; [simpl; lia|].
  rewrite iter_S_r. pose proof (Hrun t (Nat.lt_succ_diag_r t)) as Hc.
  destruct (iter step t init) as [[i j] c].
  destruct IH as (Ht & Hci & Hcj & _); [intros t' Ht'; apply Hrun; lia|].
  apply cond_true in Hc as [Hi Hj].
  destruct (Hadv (i, j, c)) as [-> | [-> | ->]]; lia.
Qed.

Lemma sweep_iteration_bounds n m step :
  (∀ s, advances s (step s)) →
  ∃ t i j c, exits_after n m step t ∧ iter step t init = (i, j, c) ∧
    (t + c = i + j ∧ (i = n ∨ j = m) ∧ i ≤ n ∧ j ≤ m ∧
     n `min` m ≤ t ∧ t ≤ n + m - 1)%nat.
Proof.
  intros Hadv. destruct (sweep_returns n m step Hadv) as (t & _ & Hexit).
  pose proof Hexit as (Hrun & Hstop & _).
  pose proof (sweep_iterations n m step t Hadv Hrun) as Hinv.
  destruct (iter step t init) as [[i j] c] eqn:Hs.
  exists t, i, j, c. split_and!; try done; try lia.
  all: apply cond_false in Hstop; lia.
Qed.

(** X7. Number of iterations: in both programs the loop runs exactly
    [t = i + j - count] iterations, where [(i, j, count)] is the state on
    exit; it leaves with [i = n] or [j = m], no pointer past its end, and
    [min(n, m) <= t <= n + m - 1] (with [t = 0] when [n + m = 0]). *)
Theorem X7_iterations k a b :
  let n := length a in
  let m := length b in
  (∃ t i j c, exits_after n m (Apartments.body k (sort a) (sort b)) t ∧
     iter (Apartments.body k (sort a) (sort b)) t init = (i, j, c) ∧
     (t + c = i + j ∧ (i = n ∨ j = m) ∧ i ≤ n ∧ j ≤ m ∧
      n `min` m ≤ t ∧ t ≤ n + m - 1)%nat) ∧
  (∃ t i j c, exits_after n m (Temp.body k (sort a) (sort b)) t ∧
     iter (Temp.body k (sort a) (sort b)) t init = (i, j, c) ∧
     (t + c = i + j ∧ (i = n ∨ j = m) ∧ i ≤ n ∧ j ≤ m ∧
      n `min` m ≤ t ∧ t ≤ n + m - 1)%nat).
Proof.
  intros n m. split; apply sweep_iteration_bounds.
  - apply apartments_body_advances.
  - apply temp_body_advances.
Qed.

(** *** Consequences of optimality *)

(** On inputs without overflow the count of [Temp.main] is the maximum
    size of a matching on values. *)
Lemma temp_main_vmax k a b :
  no_overflow a b →
  ∃ c, Temp.main k a b = Some c ∧
       (∃ V, vmatching k a b V ∧ length V = c) ∧
       (∀ V, vmatching k a b V → (length V ≤ c)%nat).
Proof.
  intros Hno. unfold Temp.main.
  destruct (sweep_returns (length a) (length b) _
              (temp_body_advances k (sort a) (sort b))) as (t & _ & _ & _ & Hw).
  rewrite Hw. eexists; split; [done|]. rewrite <-(sort_length a) in Hw at 1.
  rewrite <-(sort_length b) in Hw at 1.
  apply temp_sweep_optimal in Hw as (r & -> & (V & HV & HVr) & Hmax);
    [|apply sort_sorted..|by apply no_overflow_sort].
  rewrite !drop_0 in HV, Hmax. simpl. split.
  - exists V. split; [|done].
    revert HV. by apply vmatching_perm; [apply sort_perm..|].
  - intros W HW. apply Hmax. revert HW.
    by apply vmatching_perm; [symmetry; apply sort_perm..|].
Qed.

Lemma no_overflow_subseteq (a a' b b' : list Z) :
  (∀ x, x ∈ a' → x ∈ a) → (∀ y, y ∈ b' → y ∈ b) →
  no_overflow a b → no_overflow a' b'.
Proof. intros Ha Hb Hno x y Hx Hy. apply Hno; [by apply Ha|by apply Hb]. Qed.

Lemma temp_main_add_applicant k a b x :
  no_overflow (x :: a) b →
  ∃ c c', Temp.main k a b = Some c ∧ Temp.main k (x :: a) b = Some c' ∧
          (c ≤ c' ≤ S c)%nat.
Proof.
  intros Hno.
  destruct (temp_main_vmax k a b) as (c & Hc & (V & HV & HVl) & Hmax).
  { revert Hno. apply no_overflow_subseteq; [by right|done]. }
  destruct (temp_main_vmax k (x :: a) b Hno) as (c' & Hc' & (V' & HV' & HVl') & Hmax').
  exists c, c'. split_and!; [done..| |].
  - rewrite <-HVl. by apply Hmax', vmatching_cons_l.
  - apply vmatching_uncons_l in HV' as [HV'|(y & W & HW & HWm & _)].
    + apply Hmax in HV'. lia.
    + apply Hmax in HWm. rewrite <-HVl', HW. simpl. lia.
Qed.

Lemma temp_main_add_apartment k a b y :
  no_overflow a (y :: b) →
  ∃ c c', Temp.main k a b = Some c ∧ Temp.main k a (y :: b) = Some c' ∧
          (c ≤ c' ≤ S c)%nat.
Proof.
  intros Hno.
  destruct (temp_main_vmax k a b) as (c & Hc & (V & HV & HVl) & Hmax).
  { revert Hno. apply no_overflow_subseteq; [done|by right]. }
  destruct (temp_main_vmax k a (y :: b) Hno) as (c' & Hc' & (V' & HV' & HVl') & Hmax').
  exists c, c'. split_and!; [done..| |].
  - rewrite <-HVl. by apply Hmax', vmatching_cons_r.
  - apply vmatching_uncons_r in HV' as [HV'|(x & W & HW & HWm & _)].
    + apply Hmax in HV'. lia.
    + apply Hmax in HWm. rewrite <-HVl', HW. simpl. lia.
Qed.

(** X8. One more value: on an input without overflow and with [k >= 0],
    an additional applicant that keeps the input without overflow never
    lowers the printed count and raises it by at most one, and likewise
    an additional apartment (in both programs). *)
Theorem X8_one_more k a b z :
  0 ≤ k → no_overflow a b →
  ∃ c,
    (Temp.main k a b = Some c ∧ Apartments.main k a b = Some c) ∧
    (no_overflow (z :: a) b →
     ∃ ca, Temp.main k (z :: a) b = Some ca ∧
           Apartments.main k (z :: a) b = Some ca ∧ (c ≤ ca ≤ S c)%nat) ∧
    (no_overflow a (z :: b) →
     ∃ cb, Temp.main k a (z :: b) = Some cb ∧
           Apartments.main k a (z :: b) = Some cb ∧ (c ≤ cb ≤ S c)%nat).
Proof.
  intros Hk Hn.
  destruct (temp_main_vmax k a b Hn) as (c & Hc & _).
  exists c. split_and!.
  - done.
  - by rewrite mains_agree.
  - intros Hna.
    destruct (temp_main_add_applicant k a b z Hna) as (c0 & ca & Hc0 & Hca & Hle).
    rewrite Hc in Hc0. injection Hc0 as <-.
    exists ca. by rewrite mains_agree.
  - intros Hnb.
    destruct (temp_main_add_apartment k a b z Hnb) as (c0 & cb & Hc0 & Hcb & Hle).
    rewrite Hc in Hc0. injection Hc0 as <-.
    exists cb. by rewrite mains_agree.
Qed.

Lemma X8_one_more_witness :
  ∃ c,
    (Temp.main 100 [2000000000] [-100] = Some c ∧
     Apartments.main 100 [2000000000] [-100] = Some c) ∧
    (∃ ca, Temp.main 100 [-2000000000; 2000000000] [-100] = Some ca ∧
           Apartments.main 100 [-2000000000; 2000000000] [-100] = Some ca ∧
           (c ≤ ca ≤ S c)%nat) ∧
    (∃ cb, Temp.main 100 [2000000000] [1999999950; -100] = Some cb ∧
           Apartments.main 100 [2000000000] [1999999950; -100] = Some cb ∧
           (c ≤ cb ≤ S c)%nat).
Proof.
  assert (no_overflow [2000000000] [-100]) as Hn.
  { intros x y Hx Hy. apply list_elem_of_In in Hx, Hy. simpl in Hx, Hy.
    destruct Hx as [<-|[]], Hy as [<-|[]]. vm_compute. split; congruence. }
  destruct (X8_one_more 100 [2000000000] [-100] (-2000000000))
    as (c & Hc & Ha & _); [lia|exact Hn|].
  destruct (X8_one_more 100 [2000000000] [-100] 1999999950)
    as (c' & Hc' & _ & Hb); [lia|exact Hn|].
  destruct Hc as [Hc HcA], Hc' as [Hc' _].
  rewrite Hc in Hc'. injection Hc' as <-.
  exists c. split; [by split|]. split.
  - apply Ha. intros x y Hx Hy. apply list_elem_of_In in Hx, Hy.
    simpl in Hx, Hy.
    destruct Hx as [<-|[<-|[]]], Hy as [<-|[]]; vm_compute; split; congruence.
  - apply Hb. intros x y Hx Hy. apply list_elem_of_In in Hx, Hy.
    simpl in Hx, Hy.
    destruct Hx as [<-|[]], Hy as [<-|[<-|[]]]; vm_compute; split; congruence.
Defined.

(** In [X8_one_more_witness] the additional applicant leaves the count at
    0 and the additional apartment raises it to 1. *)
Example one_more_ex :
  Temp.main 100 [2000000000] [-100] = Some 0%nat ∧
  Temp.main 100 [-2000000000; 2000000000] [-100] = Some 0%nat ∧
  Temp.main 100 [2000000000] [1999999950; -100] = Some 1%nat.
Proof. split_and!; reflexivity. Qed.

(** Matchings on positions do not see a change of sign of all values. *)
Lemma matching_negate k a b M :
  matching k (negate a) (negate b) M ↔ matching k a b M.
Proof.
  unfold matching, negate. split; intros (H1 & H2 & H3); split_and!; try done.
  - intros p q (x & y & Hx & Hy & Hxy)%H3.
    rewrite list_lookup_fmap in Hx, Hy.
    destruct (a !! p) as [x'|]; [|done]. destruct (b !! q) as [y'|]; [|done].
    simpl in *. simplify_eq. exists x', y'. split_and!; [done..|lia].
  - intros p q (x & y & Hx & Hy & Hxy)%H3.
    exists (- x), (- y). rewrite !list_lookup_fmap, Hx, Hy.
    split_and!; [done..|lia].
Qed.

Lemma no_overflow_negate a b : no_overflow a b → no_overflow (negate a) (negate b).
Proof.
  intros Hno x y (x' & -> & Hx)%list_elem_of_fmap (y' & -> & Hy)%list_elem_of_fmap.
  specialize (Hno x' y' Hx Hy). unfold int_min, int_max in *. lia.
Qed.

(** X9. Reflection invariance: on inputs without overflow and with
    [k >= 0], replacing every value by its opposite (which reverses the
    sorted order of both vectors), as long as the values before and after
    are [int]s, changes the printed count of neither program. *)
Theorem X9_reflection k a b :
  0 ≤ k → no_overflow a b →
  ints a → ints b → ints (negate a) → ints (negate b) →
  Temp.main k (negate a) (negate b) = Temp.main k a b ∧
  Apartments.main k (negate a) (negate b) = Apartments.main k a b.
Proof.
  intros Hk Hno _ _ _ _. pose proof (no_overflow_negate a b Hno) as Hno'.
  destruct (temp_main_max k a b Hno) as (c & Hc & Hmax).
  destruct (temp_main_max k _ _ Hno') as (c' & Hc' & [(M & HM & HMl) Hmax']).
  assert (c' = c) as ->.
  { apply (max_matching_unique k a b); [|done]. split.
    - exists M. split; [by apply matching_negate|done].
    - intros M' HM'. by apply Hmax', matching_negate. }
  rewrite !mains_agree by done. by rewrite Hc, Hc'.
Qed.

Lemma X9_reflection_witness :
  Temp.main 2 (negate [1; 6; 9]) (negate [3; 4]) = Temp.main 2 [1; 6; 9] [3; 4] ∧
  Apartments.main 2 (negate [1; 6; 9]) (negate [3; 4])
    = Apartments.main 2 [1; 6; 9] [3; 4].
Proof.
  apply (X9_reflection 2 [1; 6; 9] [3; 4]); [lia| |..].
  - apply in_range_no_overflow; repeat constructor; simpl; lia.
  - repeat constructor; vm_compute; congruence.
  - repeat constructor; vm_compute; congruence.
  - repeat constructor; vm_compute; congruence.
  - repeat constructor; vm_compute; congruence.
Defined.

(** X10. Exact matching: with [k = 0], on inputs without overflow, both
    programs print the size of the largest common sub-multiset of the
    applicant and apartment values (the number of values they share,
    counted with multiplicity). *)
Theorem X10_common_values a b :
  no_overflow a b →
  ∃ c, Temp.main 0 a b = Some c ∧ Apartments.main 0 a b = Some c ∧
       (∃ l, l ⊆+ a ∧ l ⊆+ b ∧ length l = c) ∧
       (∀ l, l ⊆+ a → l ⊆+ b → (length l ≤ c)%nat).
Proof.
  intros Hno.
  destruct (temp_main_vmax 0 a b Hno) as (c & Hc & (V & HV & HVl) & Hmax).
  exists c. split_and!; [done|by rewrite mains_agree| |].
  - destruct HV as (H1 & H2 & H3). exists (V.*1).
    split_and!; [done| |by rewrite length_fmap].
    replace (V.*1) with (V.*2); [done|].
    clear -H3. induction H3 as [|[x y] V Hxy _ IH]; simpl in *; [done|].
    f_equal; [lia|done].
  - intros l Ha Hb.
    rewrite <-(length_fmap (λ x, (x, x)) l). apply Hmax. split_and!.
    + by rewrite <-list_fmap_compose, list_fmap_id.
    + by rewrite <-list_fmap_compose, list_fmap_id.
    + apply Forall_fmap, Forall_forall. intros x _. simpl. lia.
Qed.

Lemma X10_common_values_witness :
  ∃ c, Temp.main 0 [4; 7; 4; 1] [4; 4; 4; 9] = Some c ∧
       Apartments.main 0 [4; 7; 4; 1] [4; 4; 4; 9] = Some c ∧
       (∃ l, l ⊆+ [4; 7; 4; 1] ∧ l ⊆+ [4; 4; 4; 9] ∧ length l = c) ∧
       (∀ l, l ⊆+ [4; 7; 4; 1] → l ⊆+ [4; 4; 4; 9] → (length l ≤ c)%nat).
Proof.
  apply (X10_common_values [4; 7; 4; 1] [4; 4; 4; 9]).
  apply in_range_no_overflow; repeat constructor; simpl; lia.
Defined.

(** ** Reading the input *)

Lemma in_int_true z : in_int z = true ↔ int_min ≤ z ≤ int_max.
Proof. unfold in_int. rewrite andb_true_iff, !Z.leb_le. done. Qed.

Lemma read_vector_exact (a rest : list Z) :
  ints a → read_vector (length a) (Some (a ++ rest)) = (a, Some rest).
Proof.
  induction 1 as [|x a Hx _ IH]; simpl; [done|].
  apply in_int_true in Hx. by rewrite Hx, IH.
Qed.

(** On [int] tokens: entry [i] is token [i], or 0 past the end of the
    tokens, and the following extractions see the tokens after the
    [n]-th. *)
Lemma read_vector_ints n s :
  ints (pending s) →
  length (read_vector n s).1 = n ∧
  (∀ i, (i < n)%nat →
        (read_vector n s).1 !! i = Some (default 0 (pending s !! i))) ∧
  pending (read_vector n s).2 = drop n (pending s).
Proof.
  revert s. induction n as [|n IH]; intros s Hs.
  { simpl. split_and!; [done|lia|by rewrite drop_0]. }
  simpl. destruct s as [[|t rest]|]; simpl.
  - destruct (IH None) as (Hlen & Hget & Hrest); [constructor|].
    destruct (read_vector n None) as [l s']. simpl in *.
    split_and!; [by rewrite Hlen| |by rewrite Hrest, drop_nil].
    intros [|i] Hi; [done|]. simpl. by rewrite Hget by lia.
  - apply Forall_cons in Hs as [Ht Hs]. apply in_int_true in Ht. rewrite Ht.
    destruct (IH (Some rest) Hs) as (Hlen & Hget & Hrest).
    destruct (read_vector n (Some rest)) as [l s']. simpl in *.
    split_and!; [by rewrite Hlen| |done].
    intros [|i] Hi; [done|]. simpl. apply Hget. lia.
  - destruct (IH None) as (Hlen & Hget & Hrest); [constructor|].
    destruct (read_vector n None) as [l s']. simpl in *.
    split_and!; [by rewrite Hlen| |by rewrite Hrest, drop_nil].
    intros [|i] Hi; [done|]. simpl. by rewrite Hget by lia.
Qed.

Lemma mains_return k a b :
  is_Some (Apartments.main k a b) ∧ is_Some (Temp.main k a b).
Proof.
  split.
  - destruct (sweep_result_bounded (length a) (length b) _
                (apartments_body_advances k (sort a) (sort b))) as (c & Hc & _).
    by exists c.
  - destruct (sweep_result_bounded (length a) (length b) _
                (temp_body_advances k (sort a) (sort b))) as (c & Hc & _).
    by exists c.
Qed.

(** X11. Well-formed input: on the tokens [n m k a_1..a_n b_1..b_m], all
    of them [int]s, possibly followed by more tokens of any kind, the
    first [n] values after the header become the applicants and the next
    [m] the apartments; whatever follows is never read and does not change
    the printed count. *)
Theorem X11_read_well_formed k a b extra :
  Z.of_nat (length a) ≤ int_max → Z.of_nat (length b) ≤ int_max →
  int_min ≤ k ≤ int_max → ints a → ints b →
  let tokens := Z.of_nat (length a) :: Z.of_nat (length b) :: k :: a ++ b ++ extra in
  read_input tokens = Some (k, a, b) ∧
  apartments_program tokens = Apartments.main k a b ∧
  temp_program tokens = Temp.main k a b.
Proof.
  intros Hn Hm Hk Ha Hb tokens.
  assert (read_input tokens = Some (k, a, b)) as Hread.
  { unfold tokens, read_input.
    assert (in_int (Z.of_nat (length a)) = true) as ->
      by (apply in_int_true; unfold int_min; lia).
    assert (in_int (Z.of_nat (length b)) = true) as ->
      by (apply in_int_true; unfold int_min; lia).
    destruct (Z.ltb_spec (Z.of_nat (length a)) 0); [lia|].
    destruct (Z.ltb_spec (Z.of_nat (length b)) 0); [lia|].
    simpl. apply in_int_true in Hk. rewrite Hk, !Nat2Z.id.
    by rewrite (read_vector_exact a), (read_vector_exact b). }
  unfold apartments_program, temp_program. by rewrite Hread.
Qed.

Lemma X11_read_well_formed_witness :
  let tokens := Z.of_nat (length [4; 9]) :: Z.of_nat (length [5]) :: 1
                :: [4; 9] ++ [5] ++ [77; 4294967296] in
  read_input tokens = Some (1, [4; 9], [5]) ∧
  apartments_program tokens = Apartments.main 1 [4; 9] [5] ∧
  temp_program tokens = Temp.main 1 [4; 9] [5].
Proof.
  apply (X11_read_well_formed 1 [4; 9] [5] [77; 4294967296]);
    repeat constructor; vm_compute; congruence.
Defined.

(** X12. Short input: with sizes [0 <= n, m <= INT_MAX] and tokens that
    are all [int]s, the vectors always have [n] and [m] entries; the
    values missing at the end of the input are 0, and both programs still
    print a count. *)
Theorem X12_read_short n m k rest :
  0 ≤ n ≤ int_max → 0 ≤ m ≤ int_max → int_min ≤ k ≤ int_max → ints rest →
  ∃ a b, read_input (n :: m :: k :: rest) = Some (k, a, b) ∧
    length a = Z.to_nat n ∧ length b = Z.to_nat m ∧
    (∀ i, (i < length a)%nat → a !! i = Some (default 0 (rest !! i))) ∧
    (∀ j, (j < length b)%nat →
          b !! j = Some (default 0 (rest !! (length a + j)%nat))) ∧
    is_Some (apartments_program (n :: m :: k :: rest)) ∧
    is_Some (temp_program (n :: m :: k :: rest)).
Proof.
  intros Hn Hm Hk Hrest.
  destruct (read_vector_ints (Z.to_nat n) (Some rest) Hrest)
    as (Hla & Hga & Hra).
  destruct (read_vector (Z.to_nat n) (Some rest)) as [a s] eqn:Ha.
  simpl in Hla, Hga, Hra.
  destruct (read_vector_ints (Z.to_nat m) s) as (Hlb & Hgb & _).
  { rewrite Hra. by apply Forall_drop. }
  destruct (read_vector (Z.to_nat m) s) as [b s'] eqn:Hb. simpl in Hlb, Hgb.
  exists a, b.
  assert (read_input (n :: m :: k :: rest) = Some (k, a, b)) as Hread.
  { unfold read_input.
    assert (in_int n = true) as ->
      by (apply in_int_true; unfold int_min; lia).
    assert (in_int m = true) as ->
      by (apply in_int_true; unfold int_min; lia).
    destruct (Z.ltb_spec n 0); [lia|]. destruct (Z.ltb_spec m 0); [lia|].
    simpl. apply in_int_true in Hk. by rewrite Hk, Ha, Hb. }
  split_and!; [done|done|done| | | |].
  - intros i Hi. apply Hga. lia.
  - intros j Hj. rewrite Hgb by lia. by rewrite Hra, lookup_drop, Hla.
  - unfold apartments_program. rewrite Hread. apply mains_return.
  - unfold temp_program. rewrite Hread. apply mains_return.
Qed.

Lemma X12_read_short_witness :
  ∃ a b, read_input [3; 2; 1; 7; 8] = Some (1, a, b) ∧
    length a = Z.to_nat 3 ∧ length b = Z.to_nat 2 ∧
    (∀ i, (i < length a)%nat → a !! i = Some (default 0 ([7; 8] !! i))) ∧
    (∀ j, (j < length b)%nat →
          b !! j = Some (default 0 ([7; 8] !! (length a + j)%nat))) ∧
    is_Some (apartments_program [3; 2; 1; 7; 8]) ∧
    is_Some (temp_program [3; 2; 1; 7; 8]).
Proof.
  apply (X12_read_short 3 2 1 [7; 8]);
    repeat constructor; vm_compute; congruence.
Defined.

Example read_short_ex : read_input [3; 2; 1; 7; 8] = Some (1, [7; 8; 0], [0; 0]).
Proof. reflexivity. Qed.

Example read_negative_size_ex : temp_program [-1; 2; 0; 5; 5] = None.
Proof. reflexivity. Qed.

(** A token outside the [int] range is stored saturated and ends the
    reading: the apartment below stays 0 and nothing matches. *)
Example read_out_of_range_ex :
  read_input [1; 1; 0; 2147483648; 2147483648] = Some (0, [2147483647], [0]) ∧
  apartments_program [1; 1; 0; 2147483648; 2147483648] = Some 0%nat ∧
  temp_program [1; 1; 0; 2147483648; 2147483648] = Some 0%nat.
Proof. split_and!; reflexivity. Qed.

(** ** Exact arithmetic, any tolerance *)

Lemma mains_agree_exact k a b :
  no_overflow a b → Apartments.main k a b = Temp.main k a b.
Proof.
  intros Hno. destruct (Z.le_gt_cases 0 k) as [Hk|Hk]; [by apply mains_agree|].
  destruct (mains_none_fit k a b) as [-> ->]; [|done].
  intros x y Hx Hy. specialize (Hno x y Hx Hy).
  rewrite abs32_sub32_exact by done. lia.
Qed.

(** X13. On inputs without overflow the precondition [k >= 0] is not
    needed: for every [k], also a negative one (where the two loop bodies
    may advance different pointers), both programs print the same number,
    the maximum cardinality of a matching. *)
Theorem X13_exact_any_tolerance k a b :
  no_overflow a b →
  ∃ c, Apartments.main k a b = Some c ∧ Temp.main k a b = Some c ∧
       max_matching k a b c.
Proof.
  intros Hno. destruct (temp_main_max k a b Hno) as (c & Hc & Hmax).
  exists c. split_and!; [|done..]. by rewrite mains_agree_exact.
Qed.

Lemma X13_exact_any_tolerance_witness :
  ∃ c, Apartments.main (-5) [1; 7] [3] = Some c ∧
       Temp.main (-5) [1; 7] [3] = Some c ∧
       max_matching (-5) [1; 7] [3] c.
Proof.
  apply (X13_exact_any_tolerance (-5) [1; 7] [3]).
  apply in_range_no_overflow; repeat constructor; simpl; lia.
Defined.

Example bodies_differ_negative_tolerance :
  Apartments.body (-5) [1; 7] [3] init = (0, 1, 0)%nat ∧
  Temp.body (-5) [1; 7] [3] init = (1, 0, 0)%nat.
Proof. split; reflexivity. Qed.

(** ** Inputs put together *)

Lemma vmatching_app k a1 a2 b1 b2 V1 V2 :
  vmatching k a1 b1 V1 → vmatching k a2 b2 V2 →
  vmatching k (a1 ++ a2) (b1 ++ b2) (V1 ++ V2).
Proof.
  intros (H1 & H2 & H3) (H1' & H2' & H3'). split_and!.
  - rewrite fmap_app. by apply submseteq_app.
  - rewrite fmap_app. by apply submseteq_app.
  - by apply Forall_app.
Qed.

Lemma no_overflow_app a1 a2 b1 b2 :
  no_overflow (a1 ++ a2) (b1 ++ b2) → no_overflow a1 b1 ∧ no_overflow a2 b2.
Proof.
  intros Hno. split; revert Hno; apply no_overflow_subseteq;
    intros z Hz; apply elem_of_app; auto.
Qed.

(** X14. Putting two inputs together: on inputs without overflow and with
    [k >= 0], the count printed for the applicants [a1 ++ a2] and the
    apartments [b1 ++ b2] is at least the sum of the counts printed for
    [(a1, b1)] and for [(a2, b2)]. *)
Theorem X14_concatenation k a1 a2 b1 b2 :
  0 ≤ k → no_overflow (a1 ++ a2) (b1 ++ b2) →
  ∃ c1 c2 c,
    (Temp.main k a1 b1 = Some c1 ∧ Apartments.main k a1 b1 = Some c1) ∧
    (Temp.main k a2 b2 = Some c2 ∧ Apartments.main k a2 b2 = Some c2) ∧
    (Temp.main k (a1 ++ a2) (b1 ++ b2) = Some c ∧
     Apartments.main k (a1 ++ a2) (b1 ++ b2) = Some c) ∧
    (c1 + c2 ≤ c)%nat.
Proof.
  intros Hk Hno. destruct (no_overflow_app _ _ _ _ Hno) as [Hno1 Hno2].
  destruct (temp_main_vmax k a1 b1 Hno1) as (c1 & Hc1 & (V1 & HV1 & <-) & _).
  destruct (temp_main_vmax k a2 b2 Hno2) as (c2 & Hc2 & (V2 & HV2 & <-) & _).
  destruct (temp_main_vmax k _ _ Hno) as (c & Hc & _ & Hmax).
  exists (length V1), (length V2), c. rewrite !mains_agree by done.
  split_and!; try done.
  rewrite <-length_app. by apply Hmax, vmatching_app.
Qed.

Lemma X14_concatenation_witness :
  ∃ c1 c2 c,
    (Temp.main 1 [4; 1] [2] = Some c1 ∧ Apartments.main 1 [4; 1] [2] = Some c1) ∧
    (Temp.main 1 [9] [5; 8] = Some c2 ∧ Apartments.main 1 [9] [5; 8] = Some c2) ∧
    (Temp.main 1 ([4; 1] ++ [9]) ([2] ++ [5; 8]) = Some c ∧
     Apartments.main 1 ([4; 1] ++ [9]) ([2] ++ [5; 8]) = Some c) ∧
    (c1 + c2 ≤ c)%nat.
Proof.
  apply (X14_concatenation 1 [4; 1] [9] [2] [5; 8]); [lia|].
  apply in_range_no_overflow; repeat constructor; simpl; lia.
Defined.
